(** * Proof-service registries of [externals/services.go]

    A shallow embedding of the two registries of package [externals]
    ([staticProofServices] and [proofServices]) and of the lazy refresh
    of the second one from the param-proof store, followed by the
    properties of the lookup and listing operations.

    Conventions.
    - A Go [map[string]libkb.ServiceType] is a [gmap string T]; the
      zero value [nil] returned for a missing key is [None].
    - The interface [libkb.ServiceType] is the class [ServiceType]: the
      file calls two of its methods only.
    - Declarations of the package that live in other files
      ([useDevelProofCheckers], [getStaticProofServices], the config
      constructors, [json.Unmarshal] at type [proofServicesT]) are the
      fields of the class [Externals].
    - [strings.ToLower] is the field [ToLower] of the class [GoStrings];
      the order in which a [range] over a map visits the keys is an
      argument of the loop ([RangeOrder]).
    - The effects of a call (calls of [GetLatestEntry], debug log) are
      threaded through a small state monad [IO] over [World].
    - [sync.Mutex]: every public method holds the lock from entry to
      return, so a method body is one atomic step; the embedding is the
      sequential semantics of these steps. *)

From Stdlib Require Import Ascii String.
From stdpp Require Import gmap strings list fin_maps.

Local Open Scope list_scope.

(** ** [strings.ToLower]

    Go's [strings.ToLower] lower-cases every letter Unicode knows; it is
    a function of the standard library and is taken as it is, as the
    field [ToLower] of [GoStrings].  What is used of it is its behaviour
    on a string made of ASCII bytes only: there a byte in ['A','Z'] is
    moved by ['a' - 'A'] and every other byte is kept
    ([ascii_ToLower]). *)

Definition lower_byte (c : ascii) : ascii :=
  let n := nat_of_ascii c in
  if (65 <=? n)%nat && (n <=? 90)%nat then ascii_of_nat (n + 32) else c.

Fixpoint ascii_ToLower (s : string) : string :=
  match s with
  | EmptyString => EmptyString
  | String c s' => String (lower_byte c) (ascii_ToLower s')
  end.

(** Every byte is below [utf8.RuneSelf]. *)
Fixpoint is_ascii (s : string) : bool :=
  match s with
  | EmptyString => true
  | String c s' => (nat_of_ascii c <? 128)%nat && is_ascii s'
  end.

Class GoStrings := {
  ToLower : string → string;
  ToLower_ascii : ∀ s, is_ascii s = true → ToLower s = ascii_ToLower s;
}.

(** ** [range] over a map

    Go does not specify the order in which a [range] statement visits
    the keys of a map, and the order differs from one loop to the next.
    A loop is therefore given its order: any rearrangement of the
    keys. *)

Record RangeOrder := {
  arrange : list string → list string;
  arrange_perm : ∀ keys, arrange keys ≡ₚ keys;
}.

(** The keys of a map in the order the loop visits them. *)
Definition range_keys {A : Type} (o : RangeOrder) (c : gmap string A)
  : list string :=
  arrange o (map_to_list c).*1.

(* for k := range p.collection { ret = append(ret, k) } *)
Fixpoint append_keys (visited : list string) (ret : list string) : list string :=
  match visited with
  | [] => ret
  | k :: visited' => append_keys visited' (ret ++ [k])
  end.

(** ** Types of [libkb] and [keybase1] used by the file *)

(** [libkb.ServiceType], restricted to the methods called here. *)
Class ServiceType (T : Type) := {
  AllStringKeys : T → list string;
  IsDevelOnly : T → bool;
}.

(** Go's [error] values: the message. *)
Definition error : Type := string.

(** [keybase1.MerkleStoreEntry]. *)
Record MerkleStoreEntry := {
  Hash : string;
  Entry : string;
}.

(** [libkb.RunMode]. *)
Inductive RunMode :=
| DevelRunMode | StagingRunMode | ProductionRunMode | RunModeError | NoRunMode.

Definition RunMode_eqb (a b : RunMode) : bool :=
  match a, b with
  | DevelRunMode, DevelRunMode | StagingRunMode, StagingRunMode
  | ProductionRunMode, ProductionRunMode | RunModeError, RunModeError
  | NoRunMode, NoRunMode => true
  | _, _ => false
  end.

(** What [p.G()] answers during one call of a public method: the three
    environment reads of the refresh policy and the answer of
    [GetParamProofStore().GetLatestEntry]. *)
Record GlobalContext := {
  FeatureFlags_Admin : bool;
  GetRunMode : RunMode;
  RunningInCI : bool;
  GetLatestEntry_result : error + MerkleStoreEntry;
}.

(** The rest of package [externals] and the JSON decoder, as far as
    [services.go] uses them. *)
Class Externals (T : Type) := {
  useDevelProofCheckers : bool;
  getStaticProofServices : list T;
  ParamProofServiceConfig : Type;
  DisplayName : ParamProofServiceConfig → string;
  GenericSocialProofConfig : Type;
  (* json.Unmarshal(b, &services) with services : proofServicesT *)
  json_Unmarshal : string → error + list ParamProofServiceConfig;
  NewGenericSocialProofConfig :
    ParamProofServiceConfig → error + GenericSocialProofConfig;
  NewGenericSocialProofServiceType : GenericSocialProofConfig → T;
}.

(** ** Effects *)

Inductive LogMsg :=
| UnableToLoad (err : error)
| UnableToParse (err : error)
| UnableToValidate (displayName : string) (err : error).

Record World := {
  fetches : nat;          (* calls of GetLatestEntry made so far *)
  Log : list LogMsg;      (* CDebugf lines, oldest first *)
}.

Definition IO (A : Type) : Type := World → A * World.

#[global] Instance IO_ret : MRet IO := λ A a w, (a, w).
#[global] Instance IO_bind : MBind IO :=
  λ A B f m w, let '(a, w') := m w in f a w'.

Definition CDebugf (msg : LogMsg) : IO unit :=
  λ w, (tt, {| fetches := fetches w; Log := Log w ++ [msg] |}).

Definition GetLatestEntry (g : GlobalContext) : IO (error + MerkleStoreEntry) :=
  λ w, (GetLatestEntry_result g, {| fetches := S (fetches w); Log := Log w |}).

(** ** [staticProofServices] *)

Module staticProofServices.
Section static.
Context {T : Type} {ST : ServiceType T} {E : Externals T} {GS : GoStrings}.

Record t := { collection : gmap string T }.

(* for _, k := range st.AllStringKeys() { p.collection[k] = st } *)
Fixpoint register_keys (st : T) (keys : list string) (c : gmap string T)
  : gmap string T :=
  match keys with
  | [] => c
  | k :: keys' => register_keys st keys' (<[k := st]> c)
  end.

Fixpoint register_loop (services : list T) (c : gmap string T)
  : gmap string T :=
  match services with
  | [] => c
  | st :: services' =>
      if negb useDevelProofCheckers && IsDevelOnly st
      then register_loop services' c
      else register_loop services' (register_keys st (AllStringKeys st) c)
  end.

Definition register (services : list T) (p : t) : t :=
  {| collection := register_loop services (collection p) |}.

Definition newStaticProofServices : t :=
  let staticServices := getStaticProofServices in
  let p := {| collection := ∅ |} in
  register staticServices p.

Definition GetServiceType (p : t) (s : string) : option T :=
  collection p !! ToLower s.

Definition ListProofCheckers (o : RangeOrder) (p : t) : list string :=
  append_keys (range_keys o (collection p)) [].
End static.
Arguments t : clear implicits.
End staticProofServices.

(** ** [proofServices] *)

Module proofServices.
Section dynamic.
Context {T : Type} {ST : ServiceType T} {E : Externals T} {GS : GoStrings}.

(* The embedded sync.Mutex and libkb.Contextified carry no data of
   their own here: the context is the argument [g] of each method. *)
Record t := {
  collection : gmap string T;
  loaded : bool;
}.

Fixpoint register_keys (st : T) (keys : list string) (c : gmap string T)
  : gmap string T :=
  match keys with
  | [] => c
  | k :: keys' => register_keys st keys' (<[k := st]> c)
  end.

Fixpoint register_loop (services : list T) (c : gmap string T)
  : gmap string T :=
  match services with
  | [] => c
  | st :: services' =>
      if negb useDevelProofCheckers && IsDevelOnly st
      then register_loop services' c
      else register_loop services' (register_keys st (AllStringKeys st) c)
  end.

Definition register (services : list T) (p : t) : t :=
  {| collection := register_loop services (collection p);
     loaded := loaded p |}.

Definition newProofServices : t :=
  let p := {| collection := ∅; loaded := false |} in
  let staticServices := getStaticProofServices in
  register staticServices p.

(* The validation loop of parseServiceConfigs; [res] is the slice
   built so far. *)
Fixpoint validate_loop (configs : list ParamProofServiceConfig)
    (res : list GenericSocialProofConfig)
  : IO (list GenericSocialProofConfig) :=
  match configs with
  | [] => mret res
  | config :: configs' =>
      match NewGenericSocialProofConfig config with
      | inl err =>
          CDebugf (UnableToValidate (DisplayName config) err);;
          validate_loop configs' res
      | inr validConf => validate_loop configs' (res ++ [validConf])
      end
  end.

Definition parseServiceConfigs (entry : MerkleStoreEntry)
  : IO (error + list GenericSocialProofConfig) :=
  let b := Entry entry in
  match json_Unmarshal b with
  | inl err => mret (inl err)
  | inr services => res ← validate_loop services []; mret (inr res)
  end.

(* services = append(services, NewGenericSocialProofServiceType(config)) *)
Fixpoint build_services (serviceConfigs : list GenericSocialProofConfig)
    (services : list T) : list T :=
  match serviceConfigs with
  | [] => services
  | config :: rest =>
      build_services rest (services ++ [NewGenericSocialProofServiceType config])
  end.

Definition shouldRun (g : GlobalContext) : bool :=
  FeatureFlags_Admin g || RunMode_eqb (GetRunMode g) DevelRunMode
  || RunningInCI g.

Definition loadParamProofServices (g : GlobalContext) (p : t) : IO t :=
  if negb (shouldRun g) then mret p
  else
    r ← GetLatestEntry g;
    match r with
    | inl err => CDebugf (UnableToLoad err);; mret p
    | inr entry =>
        r ← parseServiceConfigs entry;
        match r with
        | inl err => CDebugf (UnableToParse err);; mret p
        | inr serviceConfigs =>
            let services := build_services serviceConfigs [] in
            mret (register services p)
        end
    end.

(* A public method returns its Go result together with the receiver
   after the call. *)
Definition GetServiceType (g : GlobalContext) (p : t) (s : string)
  : IO (option T * t) :=
  p' ← loadParamProofServices g p;
  mret (collection p' !! ToLower s, p').

Definition ListProofCheckers (g : GlobalContext) (o : RangeOrder) (p : t)
  : IO (list string * t) :=
  p' ← loadParamProofServices g p;
  mret (append_keys (range_keys o (collection p')) [], p').

(** A session: public calls in sequence, each with the context it
    observes. *)
Inductive call :=
| CallGetServiceType (s : string)
| CallListProofCheckers (o : RangeOrder).

Definition perform (g : GlobalContext) (c : call) (p : t) : IO t :=
  match c with
  | CallGetServiceType s => r ← GetServiceType g p s; mret (r.2)
  | CallListProofCheckers o => r ← ListProofCheckers g o p; mret (r.2)
  end.

Fixpoint session (calls : list (GlobalContext * call)) (p : t) : IO t :=
  match calls with
  | [] => mret p
  | (g, c) :: calls' => p' ← perform g c p; session calls' p'
  end.
End dynamic.
Arguments t : clear implicits.
End proofServices.

(** ** Specification-side vocabulary *)

Section vocabulary.
Context {T : Type} {ST : ServiceType T} {E : Externals T} {GS : GoStrings}.

(** The guard of [register], read positively: the descriptor is not
    skipped. *)
Definition registered (st : T) : bool :=
  useDevelProofCheckers || negb (IsDevelOnly st).

(** [st] is registered and lists [k] among its keys. *)
Definition carries (k : string) (st : T) : Prop :=
  registered st = true ∧ k ∈ AllStringKeys st.

#[global] Instance carries_dec k st : Decision (carries k st).
Proof. unfold carries. apply _. Defined.

(** The records of a decoded payload that pass validation, in payload
    order. *)
Definition validated (configs : list ParamProofServiceConfig)
  : list GenericSocialProofConfig :=
  omap (λ config,
          match NewGenericSocialProofConfig config with
          | inl _ => None
          | inr validConf => Some validConf
          end) configs.

(** The log lines of the validation loop: one per rejected record. *)
Definition rejections (configs : list ParamProofServiceConfig) : list LogMsg :=
  omap (λ config,
          match NewGenericSocialProofConfig config with
          | inl err => Some (UnableToValidate (DisplayName config) err)
          | inr _ => None
          end) configs.

(** The descriptors a refresh hands to [register], when it gets that
    far. *)
Definition refresh_batch (g : GlobalContext) : option (list T) :=
  if proofServices.shouldRun g then
    match GetLatestEntry_result g with
    | inl _ => None
    | inr entry =>
        match json_Unmarshal (Entry entry) with
        | inl _ => None
        | inr configs =>
            Some (NewGenericSocialProofServiceType <$> validated configs)
        end
    end
  else None.
End vocabulary.

(** ** A small concrete package, for running the definitions *)

Module Demo.
Record Svc := {
  name : string;
  keys : list string;
  develOnly : bool;
}.

#[export] Instance Svc_ServiceType : ServiceType Svc :=
  {| AllStringKeys := keys; IsDevelOnly := develOnly |}.

(* The queries of the runs are ASCII: there [strings.ToLower] is
   [ascii_ToLower]. *)
#[export] Instance ascii_strings : GoStrings :=
  {| ToLower := ascii_ToLower; ToLower_ascii := λ s _, eq_refl |}.

(* Two orders of visit: the one of [map_to_list], and its reverse. *)
Definition in_order : RangeOrder :=
  {| arrange := λ keys, keys; arrange_perm := λ keys, Permutation_refl keys |}.
Definition backwards : RangeOrder :=
  {| arrange := @rev string;
     arrange_perm := λ keys, Permutation_sym (Permutation_rev keys) |}.

Record RawConfig := {
  displayName : string;
  aliases : list string;
  devel : bool;
  wellFormed : bool;
}.

Definition check (c : RawConfig) : error + Svc :=
  if wellFormed c
  then inr {| name := displayName c; keys := aliases c; develOnly := devel c |}
  else inl "invalid config".

(* The decoder is a finite table from payloads to record lists. *)
Fixpoint decode (table : list (string * list RawConfig)) (b : string)
  : error + list RawConfig :=
  match table with
  | [] => inl "unexpected end of JSON input"
  | (b', configs) :: table' =>
      if String.eqb b b' then inr configs else decode table' b
  end.

Definition package (useDevel : bool) (builtins : list Svc)
    (table : list (string * list RawConfig)) : Externals Svc :=
  {| useDevelProofCheckers := useDevel;
     getStaticProofServices := builtins;
     ParamProofServiceConfig := RawConfig;
     DisplayName := displayName;
     GenericSocialProofConfig := Svc;
     json_Unmarshal := decode table;
     NewGenericSocialProofConfig := check;
     NewGenericSocialProofServiceType := λ conf, conf |}.

Definition context (admin : bool) (mode : RunMode) (ci : bool)
    (answer : error + MerkleStoreEntry) : GlobalContext :=
  {| FeatureFlags_Admin := admin; GetRunMode := mode; RunningInCI := ci;
     GetLatestEntry_result := answer |}.

Definition stored (payload : string) : MerkleStoreEntry :=
  {| Hash := "h"; Entry := payload |}.
Definition entry (payload : string) : error + MerkleStoreEntry :=
  inr (stored payload).

Definition w0 : World := {| fetches := 0; Log := [] |}.

Definition twitter : Svc :=
  {| name := "twitter"; keys := ["twitter"]; develOnly := false |}.
Definition web : Svc :=
  {| name := "web"; keys := ["http"; "https"; "web"]; develOnly := false |}.
Definition rooter : Svc :=
  {| name := "rooter"; keys := ["rooter"]; develOnly := true |}.

Definition mastodon : RawConfig :=
  {| displayName := "Mastodon"; aliases := ["mastodon.social"];
     devel := false; wellFormed := true |}.
Definition broken : RawConfig :=
  {| displayName := "Broken"; aliases := ["broken.example"];
     devel := false; wellFormed := false |}.
Definition twitter2 : RawConfig :=
  {| displayName := "Twitter (remote)"; aliases := ["twitter"; "x"];
     devel := false; wellFormed := true |}.
Definition staging : RawConfig :=
  {| displayName := "Staging"; aliases := ["staging.example"];
     devel := true; wellFormed := true |}.

(** Production build with three builtins and a store of three payloads. *)
Definition pkg : Externals Svc :=
  package false [twitter; web; rooter]
    [("mixed", [twitter2; broken; mastodon]);
     ("junk", [broken; broken]);
     ("none", [])].

Definition g_idle : GlobalContext :=
  context false ProductionRunMode false (entry "mixed").
Definition g_offline : GlobalContext :=
  context true ProductionRunMode false (inl "no network").
Definition g_garbled : GlobalContext :=
  context false DevelRunMode false (entry "{{{").
Definition g_mixed : GlobalContext :=
  context false ProductionRunMode true (entry "mixed").
Definition g_junk : GlobalContext :=
  context false DevelRunMode false (entry "junk").
Definition g_none : GlobalContext :=
  context false DevelRunMode false (entry "none").

(** Descriptors and records at the edges of [register]'s guard and of
    the spelling of keys. *)
Definition github : Svc :=
  {| name := "github"; keys := ["GitHub"]; develOnly := false |}.
Definition rooter_prod : Svc :=
  {| name := "rooter (prod)"; keys := ["rooter"]; develOnly := false |}.
Definition twitter_staging : RawConfig :=
  {| displayName := "Twitter (staging)"; aliases := ["twitter"];
     devel := true; wellFormed := true |}.

Definition pkg_github : Externals Svc := package false [github] [].
Definition pkg_rooters : Externals Svc := package false [rooter; rooter_prod] [].
Definition pkg_staged : Externals Svc :=
  package false [twitter]
    [("staged", [staging]);
     ("shadow", [twitter_staging]);
     ("pair", [mastodon; staging])].

Definition g_staged : GlobalContext :=
  context false DevelRunMode false (entry "staged").
Definition g_shadow : GlobalContext :=
  context true ProductionRunMode false (entry "shadow").
Definition g_pair : GlobalContext :=
  context false ProductionRunMode true (entry "pair").
End Demo.

(** ** Vocabulary for logs, sessions and sizes *)

Section session_vocabulary.
Context {T : Type} {ST : ServiceType T} {E : Externals T} {GS : GoStrings}.

(** The lines one refresh appends to the debug log. *)
Definition refresh_log (g : GlobalContext) : list LogMsg :=
  if proofServices.shouldRun g then
    match GetLatestEntry_result g with
    | inl err => [UnableToLoad err]
    | inr entry =>
        match json_Unmarshal (Entry entry) with
        | inl err => [UnableToParse err]
        | inr configs => rejections configs
        end
    end
  else [].

(** The descriptors handed to [register] over a session, in call order. *)
Definition session_batch (calls : list (GlobalContext * proofServices.call))
  : list T :=
  concat ((λ gc, default [] (refresh_batch gc.1)) <$> calls).

(** The number of aliases of the descriptors that pass the guard of
    [register]. *)
Definition alias_count (services : list T) : nat :=
  sum_list_with (λ st, if registered st then length (AllStringKeys st) else 0)
    services.
End session_vocabulary.

(** ** Sessions and an empty build, for running the definitions *)

Module DemoSessions.
Import Demo.

(** A production build whose only builtin is development-only. *)
Definition pkg_rooter_only : Externals Svc := package false [rooter] [].

(** A failed fetch followed by a refresh that goes through. *)
Definition calls_mixed : list (GlobalContext * proofServices.call) :=
  [(g_offline, proofServices.CallListProofCheckers backwards);
   (g_mixed, proofServices.CallGetServiceType "x")].

(** Calls made while the policy is off. *)
Definition calls_idle : list (GlobalContext * proofServices.call) :=
  [(g_idle, proofServices.CallListProofCheckers in_order);
   (g_idle, proofServices.CallGetServiceType "rooter")].
End DemoSessions.

(** * Properties *)

(** ** Lower-casing *)

Lemma lower_byte_idem c : lower_byte (lower_byte c) = lower_byte c.
Proof. by destruct c as [[] [] [] [] [] [] [] []]. Qed.

Lemma ascii_ToLower_idem s : ascii_ToLower (ascii_ToLower s) = ascii_ToLower s.
Proof. induction s as [|c s IH]; simpl; [done|]. by rewrite lower_byte_idem, IH. Qed.

Lemma lower_byte_ascii c :
  (nat_of_ascii c <? 128)%nat = true →
  (nat_of_ascii (lower_byte c) <? 128)%nat = true.
Proof. by destruct c as [[] [] [] [] [] [] [] []]. Qed.

Lemma ascii_ToLower_is_ascii s :
  is_ascii s = true → is_ascii (ascii_ToLower s) = true.
Proof.
  induction s as [|c s IH]; simpl; [done|].
  intros [Hc Hs]%andb_true_iff. apply andb_true_iff. split.
  - by apply lower_byte_ascii.
  - by apply IH.
Qed.

(** On an ASCII query lower-casing twice is lower-casing once. *)
Lemma ToLower_ascii_stable `{GS : GoStrings} s :
  is_ascii s = true → ToLower (ToLower s) = ToLower s.
Proof.
  intros Hs. rewrite (ToLower_ascii s Hs).
  rewrite (ToLower_ascii _ (ascii_ToLower_is_ascii s Hs)).
  apply ascii_ToLower_idem.
Qed.

(** ** Listing *)

Lemma append_keys_run visited ret : append_keys visited ret = ret ++ visited.
Proof.
  revert ret. induction visited as [|k visited IH]; intros ret; simpl.
  - by rewrite app_nil_r.
  - by rewrite IH, <- app_assoc.
Qed.

(** Whatever the order of visit, the listing is a rearrangement of the
    keys of the mapping. *)
Lemma listing_perm {A : Type} (o : RangeOrder) (c : gmap string A) :
  append_keys (range_keys o c) [] ≡ₚ (map_to_list c).*1.
Proof. rewrite append_keys_run. apply arrange_perm. Qed.

Lemma elem_of_listing {A : Type} (o : RangeOrder) (c : gmap string A) k :
  k ∈ append_keys (range_keys o c) [] ↔ k ∈ dom c.
Proof.
  rewrite listing_perm, elem_of_dom, list_elem_of_fmap. split.
  - intros ([k' v] & -> & Hin). apply elem_of_map_to_list in Hin. by eexists.
  - intros [v Hv]. exists (k, v). split; [done|]. by apply elem_of_map_to_list.
Qed.

Lemma NoDup_listing {A : Type} (o : RangeOrder) (c : gmap string A) :
  NoDup (append_keys (range_keys o c) []).
Proof. rewrite listing_perm. apply NoDup_fst_map_to_list. Qed.

Lemma length_listing {A : Type} (o : RangeOrder) (c : gmap string A) :
  length (append_keys (range_keys o c) []) = size c.
Proof. by rewrite listing_perm, length_fmap, length_map_to_list. Qed.

(** Two listings of the same mapping are rearrangements of each other. *)
Lemma listings_perm {A B : Type} (o o' : RangeOrder)
    (c : gmap string A) (c' : gmap string B) :
  dom c = dom c' →
  append_keys (range_keys o c) [] ≡ₚ append_keys (range_keys o' c') [].
Proof.
  intros Hdom. apply NoDup_Permutation; [apply NoDup_listing..|].
  intros k. by rewrite !elem_of_listing, Hdom.
Qed.

(** ** Registration *)

Section registration.
Context {T : Type} {ST : ServiceType T} {E : Externals T} {GS : GoStrings}.
Implicit Types (c : gmap string T) (st : T) (k : string).

Import staticProofServices.

Lemma register_keys_lookup st keys c k :
  register_keys st keys c !! k
  = if decide (k ∈ keys) then Some st else c !! k.
Proof.
  revert c. induction keys as [|k' keys IH]; intros c; cbn [register_keys].
  - by rewrite decide_False by apply not_elem_of_nil.
  - rewrite IH. destruct (decide (k ∈ keys)) as [Hin|Hout].
    + by rewrite decide_True by (by right).
    + destruct (decide (k = k')) as [->|Hne].
      * rewrite decide_True by left. by rewrite lookup_insert_eq.
      * rewrite decide_False by (by intros [?|?]%elem_of_cons).
        by rewrite lookup_insert_ne.
Qed.

Lemma guard_registered st :
  negb useDevelProofCheckers && IsDevelOnly st = negb (registered st).
Proof. unfold registered. by destruct useDevelProofCheckers, (IsDevelOnly st). Qed.

(** The loop, one descriptor at a time. *)
Lemma register_loop_cons st services c :
  register_loop (st :: services) c
  = register_loop services
      (if registered st then register_keys st (AllStringKeys st) c else c).
Proof. simpl. rewrite guard_registered. by destruct (registered st). Qed.

Lemma register_loop_app l1 l2 c :
  register_loop (l1 ++ l2) c = register_loop l2 (register_loop l1 c).
Proof.
  revert c. induction l1 as [|st l1 IH]; intros c; [done|].
  rewrite <- app_comm_cons, !register_loop_cons. apply IH.
Qed.


(** Last registration wins: the value at [k] is the last descriptor of
    the list that carries [k], and the old value when there is none. *)
Lemma register_loop_lookup services c k :
  register_loop services c !! k
  = match last (filter (carries k) services) with
    | Some st => Some st
    | None => c !! k
    end.
Proof.
  revert c. induction services as [|st services IH]; intros c; [done|].
  rewrite register_loop_cons, IH.
  destruct (decide (carries k st)) as [[Hr Hk]|Hn].
  - rewrite filter_cons_True by done. rewrite last_cons.
    destruct (last (filter (carries k) services)); [done|].
    rewrite Hr, register_keys_lookup. by rewrite decide_True.
  - rewrite filter_cons_False by done.
    destruct (last (filter (carries k) services)); [done|].
    destruct (registered st) eqn:Hr; [|done].
    rewrite register_keys_lookup. rewrite decide_False; [done|].
    intros Hk. by apply Hn.
Qed.

Lemma last_filter_None (P : T → Prop) `{!∀ x, Decision (P x)} (l : list T) :
  last (filter P l) = None ↔ ∀ x, x ∈ l → ¬ P x.
Proof.
  rewrite last_None. split.
  - intros Hnil x Hx HP.
    assert (x ∈ filter P l) as Hin by (by apply list_elem_of_filter).
    rewrite Hnil in Hin. by apply not_elem_of_nil in Hin.
  - intros Hall. destruct (filter P l) as [|y l'] eqn:Hf; [done|].
    assert (y ∈ filter P l) as [HP Hy]%list_elem_of_filter by (rewrite Hf; left).
    by destruct (Hall y Hy).
Qed.

Lemma last_filter_split (P : T → Prop) `{!∀ x, Decision (P x)}
    (l1 l2 : list T) (x : T) :
  P x → (∀ y, y ∈ l2 → ¬ P y) → last (filter P (l1 ++ x :: l2)) = Some x.
Proof.
  intros HP Hl2. rewrite filter_app, filter_cons_True by done.
  assert (filter P l2 = []) as ->.
  { apply last_None. by apply last_filter_None. }
  by rewrite last_snoc.
Qed.

Lemma last_filter_Some (P : T → Prop) `{!∀ x, Decision (P x)}
    (l : list T) (x : T) :
  last (filter P l) = Some x → x ∈ l ∧ P x.
Proof.
  intros Hl.
  assert (x ∈ filter P l) as Hin.
  { destruct (filter P l) as [|y l'] using rev_ind; [done|].
    rewrite last_snoc in Hl. injection Hl as ->.
    apply elem_of_app. right. left. }
  apply list_elem_of_filter in Hin. tauto.
Qed.

(** The keys after registration: the old ones and those of the
    registered descriptors, as [AllStringKeys] spells them. *)
Lemma register_loop_dom services c k :
  k ∈ dom (register_loop services c)
  ↔ k ∈ dom c ∨ ∃ st, st ∈ services ∧ carries k st.
Proof.
  rewrite !elem_of_dom, register_loop_lookup.
  destruct (last (filter (carries k) services)) as [st|] eqn:Hl.
  - apply last_filter_Some in Hl. split; [|by eauto]. intros _. right. eauto.
  - rewrite last_filter_None in Hl. split; [by left|].
    intros [?|(st & Hin & Hc)]; [done|]. by destruct (Hl st Hin).
Qed.

(** The two [register] methods are the same loop. *)
Lemma dynamic_register_keys st keys c :
  proofServices.register_keys st keys c = register_keys st keys c.
Proof. revert c. induction keys as [|k keys IH]; intros c; simpl; [done|apply IH]. Qed.

Lemma dynamic_register_loop services c :
  proofServices.register_loop services c = register_loop services c.
Proof.
  revert c. induction services as [|st services IH]; intros c; simpl; [done|].
  rewrite dynamic_register_keys. by destruct (negb _ && _).
Qed.
End registration.

(** ** The refresh step *)

Ltac io_run :=
  unfold mbind, mret, IO_bind, IO_ret, CDebugf, GetLatestEntry; cbn [fst snd].

Section refresh.
Context {T : Type} {ST : ServiceType T} {E : Externals T} {GS : GoStrings}.
Implicit Types (p : proofServices.t T) (g : GlobalContext) (w : World).

Import proofServices.

Lemma validated_cons config configs :
  validated (config :: configs)
  = match NewGenericSocialProofConfig config with
    | inl _ => validated configs
    | inr validConf => validConf :: validated configs
    end.
Proof.
  unfold validated. simpl. by destruct (NewGenericSocialProofConfig config).
Qed.

Lemma validated_length configs : length (validated configs) ≤ length configs.
Proof.
  induction configs as [|config configs IH]; [done|].
  rewrite validated_cons. destruct (NewGenericSocialProofConfig config); simpl; lia.
Qed.

Lemma elem_of_validated conf configs :
  conf ∈ validated configs
  ↔ ∃ config, config ∈ configs ∧ NewGenericSocialProofConfig config = inr conf.
Proof.
  unfold validated. rewrite list_elem_of_omap. split.
  - intros (config & Hin & Hv). exists config. split; [done|].
    destruct (NewGenericSocialProofConfig config); congruence.
  - intros (config & Hin & Hv). exists config. by rewrite Hv.
Qed.

Lemma validated_app l1 l2 : validated (l1 ++ l2) = validated l1 ++ validated l2.
Proof. apply omap_app. Qed.

Lemma validated_all_rejected configs :
  (∀ config, config ∈ configs →
     ∃ err, NewGenericSocialProofConfig config = inl err) →
  validated configs = [].
Proof.
  induction configs as [|config configs IH]; intros Hall; [done|].
  rewrite validated_cons. destruct (Hall config) as [err ->]; [left|].
  apply IH. intros c Hc. apply Hall. by right.
Qed.

(** The validation loop appends the valid records to [res], in order,
    never fetches, and only adds log lines. *)
Lemma validate_loop_run configs res w :
  (validate_loop configs res w).1 = res ++ validated configs
  ∧ fetches (validate_loop configs res w).2 = fetches w.
Proof.
  revert res w. induction configs as [|config configs IH]; intros res w.
  - cbn. by rewrite app_nil_r.
  - rewrite validated_cons. cbn [validate_loop].
    destruct (NewGenericSocialProofConfig config) as [err|validConf].
    + io_run.
      match goal with
      | |- context [validate_loop configs res ?w'] =>
          by destruct (IH res w') as [-> ->]
      end.
    + destruct (IH (res ++ [validConf]) w) as [-> ->].
      by rewrite <- app_assoc.
Qed.

Lemma parseServiceConfigs_run entry w :
  (parseServiceConfigs entry w).1
  = match json_Unmarshal (Entry entry) with
    | inl err => inl err
    | inr configs => inr (validated configs)
    end
  ∧ fetches (parseServiceConfigs entry w).2 = fetches w.
Proof.
  unfold parseServiceConfigs.
  destruct (json_Unmarshal (Entry entry)) as [err|configs]; [done|].
  io_run. destruct (validate_loop_run configs [] w) as [H1 H2].
  destruct (validate_loop configs [] w) as [res w']. by simplify_eq/=.
Qed.

Lemma build_services_run serviceConfigs services :
  build_services serviceConfigs services
  = services ++ (NewGenericSocialProofServiceType <$> serviceConfigs).
Proof.
  revert services.
  induction serviceConfigs as [|config rest IH]; intros services; simpl.
  - by rewrite app_nil_r.
  - by rewrite IH, <- app_assoc.
Qed.

(** What a refresh leaves in the receiver. *)
Lemma loadParamProofServices_result g p w :
  (loadParamProofServices g p w).1
  = match refresh_batch g with
    | Some services => register services p
    | None => p
    end.
Proof.
  unfold loadParamProofServices, refresh_batch.
  destruct (shouldRun g); [|done]. cbn [negb]. io_run.
  destruct (GetLatestEntry_result g) as [err|entry]; [done|].
  destruct (parseServiceConfigs_run entry
              {| fetches := S (fetches w); Log := Log w |}) as [H1 _].
  destruct (parseServiceConfigs entry _) as [r w']. cbn [fst] in H1. subst r.
  destruct (json_Unmarshal (Entry entry)) as [err|configs]; [done|].
  cbn [fst]. by rewrite build_services_run.
Qed.

(** How often a refresh calls the provider. *)
Lemma loadParamProofServices_fetches g p w :
  fetches (loadParamProofServices g p w).2
  = fetches w + (if shouldRun g then 1 else 0).
Proof.
  unfold loadParamProofServices.
  destruct (shouldRun g); cbn [negb]; [|io_run; lia]. io_run.
  destruct (GetLatestEntry_result g) as [err|entry]; [simpl; lia|].
  destruct (parseServiceConfigs_run entry
              {| fetches := S (fetches w); Log := Log w |}) as [_ H2].
  destruct (parseServiceConfigs entry _) as [r w']. cbn [snd fetches] in H2.
  destruct r; simpl; lia.
Qed.

Lemma GetServiceType_run g p s w :
  (GetServiceType g p s w).1
  = (collection (loadParamProofServices g p w).1 !! ToLower s,
     (loadParamProofServices g p w).1)
  ∧ (GetServiceType g p s w).2 = (loadParamProofServices g p w).2.
Proof. unfold GetServiceType. io_run. by destruct (loadParamProofServices g p w). Qed.

Lemma ListProofCheckers_run g o p w :
  (ListProofCheckers g o p w).1
  = (append_keys
       (range_keys o (collection (loadParamProofServices g p w).1)) [],
     (loadParamProofServices g p w).1)
  ∧ (ListProofCheckers g o p w).2 = (loadParamProofServices g p w).2.
Proof. unfold ListProofCheckers. io_run. by destruct (loadParamProofServices g p w). Qed.

Lemma shouldRun_spec g :
  shouldRun g = true
  ↔ FeatureFlags_Admin g = true ∨ GetRunMode g = DevelRunMode
    ∨ RunningInCI g = true.
Proof.
  unfold shouldRun.
  destruct (FeatureFlags_Admin g), (GetRunMode g), (RunningInCI g); simpl;
    (split; [auto|]); intros [?|[?|?]]; congruence.
Qed.

Lemma register_collection services p :
  collection (register services p)
  = staticProofServices.register_loop services (collection p).
Proof. apply dynamic_register_loop. Qed.
End refresh.

(** ** Refresh failures, policy and fetch counting *)

Section refresh_claims.
Context {T : Type} {ST : ServiceType T} {E : Externals T} {GS : GoStrings}.
Implicit Types (p : proofServices.t T) (g : GlobalContext) (w : World).

Import proofServices.

Lemma refresh_batch_fetch_error g err :
  GetLatestEntry_result g = inl err → refresh_batch g = None.
Proof. unfold refresh_batch. intros ->. by destruct (shouldRun g). Qed.

Lemma refresh_batch_decode_error g entry err :
  GetLatestEntry_result g = inr entry →
  json_Unmarshal (Entry entry) = inl err →
  refresh_batch g = None.
Proof. unfold refresh_batch. intros -> ->. by destruct (shouldRun g). Qed.

Lemma refresh_batch_decoded g entry configs :
  shouldRun g = true →
  GetLatestEntry_result g = inr entry →
  json_Unmarshal (Entry entry) = inr configs →
  refresh_batch g = Some (NewGenericSocialProofServiceType <$> validated configs).
Proof. unfold refresh_batch. by intros -> -> ->. Qed.

(** C2. When the refresh fails at the fetch stage ([GetLatestEntry]
    returns an error) or at the decode stage (the payload does not
    unmarshal), [GetServiceType] and [ListProofCheckers] answer from
    the receiver as it was and leave it as it was: the lookup reads the
    mapping of before the call at the lower-cased query, and the
    listing holds the keys of that mapping, each once, in whatever
    order the loop visits them.  Their result types have no error
    component, so nothing is reported to the caller. *)
Theorem refresh_failure_is_silent g o p s w :
  (∃ err, GetLatestEntry_result g = inl err)
  ∨ (∃ entry err, GetLatestEntry_result g = inr entry
                  ∧ json_Unmarshal (Entry entry) = inl err) →
  (GetServiceType g p s w).1 = (collection p !! ToLower s, p)
  ∧ (ListProofCheckers g o p w).1.2 = p
  ∧ NoDup (ListProofCheckers g o p w).1.1
  ∧ (∀ k, k ∈ (ListProofCheckers g o p w).1.1 ↔ k ∈ dom (collection p)).
Proof.
  intros Hfail.
  assert (refresh_batch g = None) as Hb.
  { destruct Hfail as [[err H1]|(entry & err & H1 & H2)].
    - by eapply refresh_batch_fetch_error.
    - by eapply refresh_batch_decode_error. }
  destruct (GetServiceType_run g p s w) as [-> _].
  destruct (ListProofCheckers_run g o p w) as [-> _]. cbn [fst snd].
  rewrite loadParamProofServices_result, Hb.
  split; [done|split; [done|split]].
  - apply NoDup_listing.
  - intros k. apply elem_of_listing.
Qed.

(** C4. A public call fetches exactly when one of the three policy
    conditions holds (admin feature flag, development run mode,
    running in CI).  When none holds, neither [GetServiceType] nor
    [ListProofCheckers] calls [GetLatestEntry], and the receiver is
    unchanged. *)
Theorem refresh_policy_gates_fetch g o p s w :
  (fetches (GetServiceType g p s w).2 = S (fetches w)
   ↔ FeatureFlags_Admin g = true ∨ GetRunMode g = DevelRunMode
     ∨ RunningInCI g = true)
  ∧ (fetches (ListProofCheckers g o p w).2 = S (fetches w)
     ↔ FeatureFlags_Admin g = true ∨ GetRunMode g = DevelRunMode
       ∨ RunningInCI g = true)
  ∧ (FeatureFlags_Admin g = false → GetRunMode g ≠ DevelRunMode →
     RunningInCI g = false →
     fetches (GetServiceType g p s w).2 = fetches w
     ∧ (GetServiceType g p s w).1.2 = p
     ∧ fetches (ListProofCheckers g o p w).2 = fetches w
     ∧ (ListProofCheckers g o p w).1.2 = p).
Proof.
  destruct (GetServiceType_run g p s w) as [Hg1 ->].
  destruct (ListProofCheckers_run g o p w) as [Hl1 ->].
  rewrite Hg1, Hl1, loadParamProofServices_fetches. cbn [fst snd].
  rewrite loadParamProofServices_result, <- shouldRun_spec.
  unfold refresh_batch.
  destruct (shouldRun g) eqn:Hrun.
  - split; [|split]; [split; [done|lia]..|].
    intros Ha Hm Hc. apply shouldRun_spec in Hrun.
    destruct Hrun as [?|[?|?]]; congruence.
  - split; [|split]; [split; [lia|done]..|].
    intros _ _ _. repeat split; lia.
Qed.

(** C8. There is no once-per-session guard.  Whatever the receiver
    (its [loaded] field included) and whatever happened before, a
    public call fetches once when the policy holds at that call and
    not at all otherwise; over a session the fetches add up to the
    number of calls made while the policy held.  The [loaded] field is
    never written. *)
Theorem every_eligible_call_fetches_once :
  (∀ g c p w,
     fetches (perform g c p w).2 = fetches w + (if shouldRun g then 1 else 0))
  ∧ (∀ calls p w,
       fetches (session calls p w).2
       = fetches w + length (filter (λ gc, shouldRun gc.1 = true) calls))
  ∧ (∀ calls p w, loaded (session calls p w).1 = loaded p).
Proof.
  assert (∀ g c p w,
    fetches (perform g c p w).2 = fetches w + (if shouldRun g then 1 else 0)
    ∧ loaded (perform g c p w).1 = loaded p) as Hstep.
  { intros g c p w.
    assert (loaded (loadParamProofServices g p w).1 = loaded p) as Hl.
    { rewrite loadParamProofServices_result. by destruct (refresh_batch g). }
    destruct c as [s|o]; unfold perform; io_run.
    - destruct (GetServiceType_run g p s w) as [H1 H2].
      destruct (GetServiceType g p s w) as [r w']. cbn [fst snd] in *.
      subst. by rewrite loadParamProofServices_fetches.
    - destruct (ListProofCheckers_run g o p w) as [H1 H2].
      destruct (ListProofCheckers g o p w) as [r w']. cbn [fst snd] in *.
      subst. by rewrite loadParamProofServices_fetches. }
  split; [intros; apply Hstep|].
  split.
  - intros calls. induction calls as [|[g c] calls IH]; intros p w.
    + cbn. lia.
    + cbn [session]. io_run.
      destruct (Hstep g c p w) as [Hf _].
      destruct (perform g c p w) as [p' w']. cbn [fst snd] in *.
      rewrite IH, Hf. destruct (shouldRun g) eqn:Hrun.
      * rewrite filter_cons_True by done. simpl. lia.
      * rewrite filter_cons_False by (simpl; congruence). lia.
  - intros calls. induction calls as [|[g c] calls IH]; intros p w; [done|].
    cbn [session]. io_run.
    destruct (Hstep g c p w) as [_ Hl].
    destruct (perform g c p w) as [p' w']. cbn [fst snd] in *.
    by rewrite IH.
Qed.
End refresh_claims.

(** ** Absent keys and batches without a valid record *)

Section absence.
Context {T : Type} {ST : ServiceType T} {E : Externals T} {GS : GoStrings}.
Implicit Types (p : proofServices.t T) (g : GlobalContext) (w : World).

Import proofServices.

Lemma rejections_cons config configs :
  rejections (config :: configs)
  = match NewGenericSocialProofConfig config with
    | inl err => UnableToValidate (DisplayName config) err :: rejections configs
    | inr _ => rejections configs
    end.
Proof.
  unfold rejections. simpl. by destruct (NewGenericSocialProofConfig config).
Qed.

Lemma validate_loop_log configs res w :
  Log (validate_loop configs res w).2 = Log w ++ rejections configs.
Proof.
  revert res w. induction configs as [|config configs IH]; intros res w.
  - cbn. by rewrite app_nil_r.
  - rewrite rejections_cons. cbn [validate_loop].
    destruct (NewGenericSocialProofConfig config) as [err|validConf].
    + io_run. rewrite IH. cbn [Log]. by rewrite <- app_assoc.
    + apply IH.
Qed.

(** The log of a refresh that fetched and decoded: the rejected
    records, nothing about loading or parsing. *)
Lemma loadParamProofServices_log g p w entry configs :
  shouldRun g = true →
  GetLatestEntry_result g = inr entry →
  json_Unmarshal (Entry entry) = inr configs →
  Log (loadParamProofServices g p w).2 = Log w ++ rejections configs.
Proof.
  intros Hrun Hfetch Hdec. unfold loadParamProofServices.
  rewrite Hrun. cbn [negb]. io_run. rewrite Hfetch.
  unfold parseServiceConfigs. rewrite Hdec. io_run.
  match goal with
  | |- context [validate_loop configs [] ?w'] =>
      pose proof (validate_loop_log configs [] w') as Hlog;
      destruct (validate_loop configs [] w') as [res w'']
  end.
  cbn [fst snd Log] in *. by rewrite Hlog.
Qed.

(** C9. [GetServiceType] is a total function on both registries, and
    for a query that [strings.ToLower] maps to a string that is not a
    key of the mapping it returns the absent descriptor ([None], Go's
    nil): for the static registry, for the dynamic registry with
    respect to the mapping the lookup reads (the one left by the call's
    refresh step), and with respect to the mapping before the call
    whenever the refresh step registers no descriptor carrying that
    string. *)
Theorem missing_key_gives_nil :
  (∀ (sp : staticProofServices.t T) s,
     ToLower s ∉ dom (staticProofServices.collection sp) →
     staticProofServices.GetServiceType sp s = None)
  ∧ (∀ g p s w,
       ToLower s ∉ dom (collection (GetServiceType g p s w).1.2) →
       (GetServiceType g p s w).1.1 = None)
  ∧ (∀ g p s w,
       ToLower s ∉ dom (collection p) →
       (∀ services st, refresh_batch g = Some services → st ∈ services →
                       ¬ carries (ToLower s) st) →
       (GetServiceType g p s w).1.1 = None).
Proof.
  split; [|split].
  - intros sp s Hs. unfold staticProofServices.GetServiceType.
    by apply not_elem_of_dom.
  - intros g p s w. destruct (GetServiceType_run g p s w) as [-> _].
    cbn [fst snd]. apply not_elem_of_dom.
  - intros g p s w Hs Hbatch. destruct (GetServiceType_run g p s w) as [-> _].
    cbn [fst snd]. rewrite loadParamProofServices_result.
    destruct (refresh_batch g) as [services|] eqn:Hb.
    + rewrite register_collection. apply not_elem_of_dom.
      rewrite register_loop_dom. intros [?|(st & Hin & Hc)]; [done|].
      by eapply Hbatch.
    + by apply not_elem_of_dom.
Qed.

(** C10. When the payload decodes and every record fails validation,
    [parseServiceConfigs] returns the empty list and no error; the
    refresh then logs the rejections only (not the decode failure) and
    leaves the receiver unchanged, and both public methods answer as
    they do, from the same receiver, when the payload holds an empty
    services list: the same lookup result, the same receiver, the same
    number of fetches, and listings that hold the same keys (each in
    the order its own loop visits them). *)
Theorem all_invalid_batch_is_empty_batch
    g g0 o o0 entry entry0 configs p s w :
  shouldRun g = true →
  GetLatestEntry_result g = inr entry →
  json_Unmarshal (Entry entry) = inr configs →
  (∀ config, config ∈ configs →
     ∃ err, NewGenericSocialProofConfig config = inl err) →
  shouldRun g0 = true →
  GetLatestEntry_result g0 = inr entry0 →
  json_Unmarshal (Entry entry0) = inr [] →
  (parseServiceConfigs entry w).1 = inr []
  ∧ (loadParamProofServices g p w).1 = p
  ∧ Log (loadParamProofServices g p w).2
    = Log w ++ ((λ config, UnableToValidate (DisplayName config)
                   match NewGenericSocialProofConfig config with
                   | inl err => err
                   | inr _ => ""
                   end) <$> configs)
  ∧ (GetServiceType g p s w).1 = (GetServiceType g0 p s w).1
  ∧ (ListProofCheckers g o p w).1.1 ≡ₚ (ListProofCheckers g0 o0 p w).1.1
  ∧ (ListProofCheckers g o p w).1.2 = (ListProofCheckers g0 o0 p w).1.2
  ∧ fetches (GetServiceType g p s w).2 = fetches (GetServiceType g0 p s w).2
  ∧ fetches (ListProofCheckers g o p w).2
    = fetches (ListProofCheckers g0 o0 p w).2.
Proof.
  intros Hrun Hfetch Hdec Hbad Hrun0 Hfetch0 Hdec0.
  pose proof (validated_all_rejected configs Hbad) as Hv.
  assert ((loadParamProofServices g p w).1 = p) as Hp.
  { rewrite loadParamProofServices_result.
    rewrite (refresh_batch_decoded g entry configs) by done.
    rewrite Hv. by destruct p. }
  assert ((loadParamProofServices g0 p w).1 = p) as Hp0.
  { rewrite loadParamProofServices_result.
    rewrite (refresh_batch_decoded g0 entry0 []) by done. by destruct p. }
  split; [|split; [done|split]].
  - destruct (parseServiceConfigs_run entry w) as [-> _]. by rewrite Hdec, Hv.
  - rewrite (loadParamProofServices_log g p w entry configs) by done.
    f_equal. clear -Hbad. induction configs as [|config configs IH]; [done|].
    rewrite rejections_cons, fmap_cons.
    destruct (Hbad config) as [err Herr]; [left|]. rewrite Herr. f_equal.
    apply IH. intros c Hc. apply Hbad. by right.
  - destruct (GetServiceType_run g p s w) as [-> ->].
    destruct (GetServiceType_run g0 p s w) as [-> ->].
    destruct (ListProofCheckers_run g o p w) as [-> ->].
    destruct (ListProofCheckers_run g0 o0 p w) as [-> ->].
    rewrite !loadParamProofServices_fetches, Hp, Hp0, Hrun, Hrun0.
    cbn [fst snd]. repeat split; try done. by apply listings_perm.
Qed.
End absence.

(** ** Builtin registration: spelling of keys and the development flag *)

Section builtin_claims.
Context {T : Type} {ST : ServiceType T} {E : Externals T} {GS : GoStrings}.
Implicit Types (c : gmap string T) (st : T) (k : string).

Import staticProofServices.

Lemma dynamic_seed :
  proofServices.collection (proofServices.newProofServices (T:=T))
  = collection newStaticProofServices.
Proof. apply dynamic_register_loop. Qed.


(** C5 (amended). [register] stores every alias of a registered
    builtin under the spelling [AllStringKeys] returns, without
    lower-casing it; only the query is lower-cased by
    [strings.ToLower].  On both registries
    [GetServiceType s = GetServiceType (ToLower s)] for every query on
    which lower-casing twice is lower-casing once, which is the case of
    every ASCII query.  A query in any letter case that
    [strings.ToLower] maps to an alias of a registered builtin returns
    the last registered builtin that lists this alias. *)
Theorem lookup_lowers_the_query_only :
  (∀ o k, k ∈ ListProofCheckers o newStaticProofServices
          ↔ ∃ st, st ∈ getStaticProofServices ∧ registered st = true
                  ∧ k ∈ AllStringKeys st)
  ∧ (∀ (sp : t T) s,
       ToLower (ToLower s) = ToLower s →
       GetServiceType sp s = GetServiceType sp (ToLower s))
  ∧ (∀ g (p : proofServices.t T) s w,
       ToLower (ToLower s) = ToLower s →
       proofServices.GetServiceType g p s w
       = proofServices.GetServiceType g p (ToLower s) w)
  ∧ (∀ s, is_ascii s = true → ToLower (ToLower s) = ToLower s)
  ∧ (∀ pre st post k s,
       getStaticProofServices = pre ++ st :: post →
       registered st = true → k ∈ AllStringKeys st →
       (∀ st', st' ∈ post → registered st' = true → k ∉ AllStringKeys st') →
       ToLower s = k →
       GetServiceType newStaticProofServices s = Some st
       ∧ (proofServices.collection proofServices.newProofServices)
           !! ToLower s = Some st).
Proof.
  split; [|split; [|split; [|split]]].
  - intros o k. unfold ListProofCheckers. rewrite elem_of_listing.
    unfold newStaticProofServices, register. cbn [collection].
    rewrite register_loop_dom, dom_empty_L. unfold carries. split.
    + intros [Hk|(st & Hin & Hr & Hk)]; [by apply not_elem_of_empty in Hk|].
      by exists st.
    + intros (st & Hin & Hr & Hk). right. by exists st.
  - intros sp s Hs. unfold GetServiceType. by rewrite Hs.
  - intros g p s w Hs. unfold proofServices.GetServiceType.
    by rewrite Hs.
  - apply ToLower_ascii_stable.
  - intros pre st post k s Hlist Hr Hk Hpost <-.
    assert (collection newStaticProofServices !! ToLower s = Some st) as Hl.
    { unfold newStaticProofServices, register. cbn [collection].
      rewrite register_loop_lookup, Hlist.
      rewrite (last_filter_split (carries (ToLower s))); [done|done|].
      intros st' Hin [Hr' Hk']. by apply (Hpost st'). }
    split; [done|]. by rewrite dynamic_seed.
Qed.
End builtin_claims.

(** ** Merging a decoded batch *)

Section merge_claims.
Context {T : Type} {ST : ServiceType T} {E : Externals T} {GS : GoStrings}.
Implicit Types (p : proofServices.t T) (g : GlobalContext) (w : World).
Implicit Types (k : string).

Import proofServices.

(** The mapping after a refresh that fetched and decoded. *)
Lemma refreshed_collection g p w entry configs :
  shouldRun g = true →
  GetLatestEntry_result g = inr entry →
  json_Unmarshal (Entry entry) = inr configs →
  collection (loadParamProofServices g p w).1
  = staticProofServices.register_loop
      (NewGenericSocialProofServiceType <$> validated configs) (collection p).
Proof.
  intros Hrun Hfetch Hdec. rewrite loadParamProofServices_result.
  rewrite (refresh_batch_decoded g entry configs) by done.
  apply register_collection.
Qed.

Lemma elem_of_batch st configs :
  st ∈ NewGenericSocialProofServiceType <$> validated configs
  ↔ ∃ config conf, config ∈ configs
                   ∧ NewGenericSocialProofConfig config = inr conf
                   ∧ st = NewGenericSocialProofServiceType conf.
Proof.
  rewrite list_elem_of_fmap. split.
  - intros (conf & -> & (config & Hin & Hv)%elem_of_validated).
    by exists config, conf.
  - intros (config & conf & Hin & Hv & ->). exists conf. split; [done|].
    apply elem_of_validated. by exists config.
Qed.

(** C1 (amended). After a refresh whose payload decodes, with N of
    its M records passing validation, [ListProofCheckers] returns, once
    each, exactly the keys present before and the alias keys of those
    validated records whose descriptor passes the guard of [register]
    (development flag set, or descriptor not development-only).
    Records that fail validation contribute nothing, wherever they
    stand in the payload. *)
Theorem refresh_lists_old_and_registered_keys g o p w entry configs :
  shouldRun g = true →
  GetLatestEntry_result g = inr entry →
  json_Unmarshal (Entry entry) = inr configs →
  (parseServiceConfigs entry w).1 = inr (validated configs)
  ∧ length (validated configs) ≤ length configs
  ∧ NoDup (ListProofCheckers g o p w).1.1
  ∧ ∀ k, k ∈ (ListProofCheckers g o p w).1.1
         ↔ k ∈ dom (collection p)
           ∨ ∃ config conf,
               config ∈ configs
               ∧ NewGenericSocialProofConfig config = inr conf
               ∧ (useDevelProofCheckers = true
                  ∨ IsDevelOnly (NewGenericSocialProofServiceType conf) = false)
               ∧ k ∈ AllStringKeys (NewGenericSocialProofServiceType conf).
Proof.
  intros Hrun Hfetch Hdec.
  destruct (ListProofCheckers_run g o p w) as [-> _]. cbn [fst].
  split; [|split; [apply validated_length|split; [apply NoDup_listing|]]].
  { destruct (parseServiceConfigs_run entry w) as [-> _]. by rewrite Hdec. }
  intros k. rewrite elem_of_listing.
  rewrite (refreshed_collection g p w entry configs) by done.
  rewrite register_loop_dom. apply or_iff_compat_l. split.
  - intros (st & (config & conf & Hin & Hv & ->)%elem_of_batch & Hr & Hk).
    exists config, conf. repeat split; [done..| |done].
    unfold registered in Hr. apply orb_true_iff in Hr as [?|Hn]; [by left|].
    right. by apply negb_true_iff.
  - intros (config & conf & Hin & Hv & Hr & Hk).
    exists (NewGenericSocialProofServiceType conf). split.
    + apply elem_of_batch. by exists config, conf.
    + split; [|done]. unfold registered. apply orb_true_iff.
      destruct Hr as [?|Hn]; [by left|]. right. by apply negb_true_iff.
Qed.

(** C3 (amended). Let a refresh fetch and decode a batch in which a
    validated record's descriptor passes the guard of [register] and
    lists the alias [k], no later validated record of the batch doing
    the same.  Then [GetServiceType] on any query that
    [strings.ToLower] maps to [k] returns that descriptor, whatever the
    mapping held at [k] before (a builtin, an earlier refresh, or
    nothing); an earlier record of the batch with the same alias is
    overwritten. *)
Theorem remote_alias_overrides g p w entry pre config post conf k s :
  shouldRun g = true →
  GetLatestEntry_result g = inr entry →
  json_Unmarshal (Entry entry) = inr (pre ++ config :: post) →
  NewGenericSocialProofConfig config = inr conf →
  registered (NewGenericSocialProofServiceType conf) = true →
  k ∈ AllStringKeys (NewGenericSocialProofServiceType conf) →
  (∀ config' conf',
     config' ∈ post → NewGenericSocialProofConfig config' = inr conf' →
     registered (NewGenericSocialProofServiceType conf') = true →
     k ∉ AllStringKeys (NewGenericSocialProofServiceType conf')) →
  ToLower s = k →
  (GetServiceType g p s w).1.1 = Some (NewGenericSocialProofServiceType conf).
Proof.
  intros Hrun Hfetch Hdec Hv Hr Hk Hpost <-.
  destruct (GetServiceType_run g p s w) as [-> _]. cbn [fst].
  rewrite (refreshed_collection g p w entry (pre ++ config :: post)) by done.
  rewrite register_loop_lookup.
  rewrite validated_app, validated_cons, Hv, fmap_app, fmap_cons.
  rewrite (last_filter_split (carries (ToLower s))); [done|done|].
  intros st' (config' & conf' & Hin & Hv' & ->)%elem_of_batch [Hr' Hk'].
  by apply (Hpost config' conf').
Qed.

(** C6 (amended). The descriptors of the validated records go through
    the same [register] loop as the builtins, guard included: a
    validated record whose descriptor is development-only is skipped
    when the development flag is off.  Every validated record whose
    descriptor passes the guard is registered: each of its aliases is
    mapped to the descriptor of a validated record of the batch that
    passes the guard and lists that alias.  Keys that no such record
    lists keep their value. *)
Theorem validated_descriptors_are_registered_under_the_guard
    g p w entry configs :
  shouldRun g = true →
  GetLatestEntry_result g = inr entry →
  json_Unmarshal (Entry entry) = inr configs →
  collection (loadParamProofServices g p w).1
  = staticProofServices.register_loop
      (NewGenericSocialProofServiceType <$> validated configs) (collection p)
  ∧ (∀ config conf k,
       config ∈ configs → NewGenericSocialProofConfig config = inr conf →
       registered (NewGenericSocialProofServiceType conf) = true →
       k ∈ AllStringKeys (NewGenericSocialProofServiceType conf) →
       ∃ config' conf',
         config' ∈ configs
         ∧ NewGenericSocialProofConfig config' = inr conf'
         ∧ carries k (NewGenericSocialProofServiceType conf')
         ∧ collection (loadParamProofServices g p w).1 !! k
           = Some (NewGenericSocialProofServiceType conf'))
  ∧ (∀ k,
       (∀ config conf,
          config ∈ configs → NewGenericSocialProofConfig config = inr conf →
          ¬ carries k (NewGenericSocialProofServiceType conf)) →
       collection (loadParamProofServices g p w).1 !! k = collection p !! k).
Proof.
  intros Hrun Hfetch Hdec.
  pose proof (refreshed_collection g p w entry configs Hrun Hfetch Hdec) as Hc.
  split; [done|]. rewrite Hc. split.
  - intros config conf k Hin Hv Hr Hk. rewrite register_loop_lookup.
    destruct (last (filter (carries k) _)) as [st|] eqn:Hl.
    + apply last_filter_Some in Hl as [Hst Hcar].
      apply elem_of_batch in Hst as (config' & conf' & Hin' & Hv' & ->).
      by exists config', conf'.
    + rewrite last_filter_None in Hl.
      destruct (Hl (NewGenericSocialProofServiceType conf)).
      * apply elem_of_batch. by exists config, conf.
      * by split.
  - intros k Hnone. rewrite register_loop_lookup.
    destruct (last (filter (carries k) _)) as [st|] eqn:Hl; [|done].
    apply last_filter_Some in Hl as [Hst Hcar].
    apply elem_of_batch in Hst as (config' & conf' & Hin' & Hv' & ->).
    by destruct (Hnone config' conf').
Qed.
End merge_claims.

(** * Runs on the concrete package *)

(** Case analysis on membership in a list given by its elements. *)
Ltac members H :=
  repeat (apply elem_of_cons in H as [H|H]; [try subst|]);
  [..|by apply elem_of_nil in H].

Section production_runs.
Import Demo.
#[local] Existing Instance pkg.

Lemma refresh_failure_is_silent_witness :
  ((∃ err, GetLatestEntry_result g_garbled = inl err)
   ∨ (∃ entry err, GetLatestEntry_result g_garbled = inr entry
                   ∧ json_Unmarshal (Entry entry) = inl err))
  ∧ (proofServices.GetServiceType g_garbled
       proofServices.newProofServices "Twitter" w0).1
    = (proofServices.collection (proofServices.newProofServices)
         !! ToLower "Twitter",
       proofServices.newProofServices)
  ∧ (proofServices.ListProofCheckers g_garbled backwards
       proofServices.newProofServices w0).1.2
    = proofServices.newProofServices
  ∧ NoDup (proofServices.ListProofCheckers g_garbled backwards
             proofServices.newProofServices w0).1.1
  ∧ (∀ k, k ∈ (proofServices.ListProofCheckers g_garbled backwards
                 proofServices.newProofServices w0).1.1
          ↔ k ∈ dom (proofServices.collection proofServices.newProofServices)).
Proof.
  assert ((∃ err, GetLatestEntry_result g_garbled = inl err)
          ∨ (∃ entry err, GetLatestEntry_result g_garbled = inr entry
               ∧ json_Unmarshal (Entry entry) = inl err)) as H.
  { right. exists (stored "{{{"), "unexpected end of JSON input".
    split; reflexivity. }
  split; [exact H|].
  exact (refresh_failure_is_silent g_garbled backwards
           proofServices.newProofServices "Twitter" w0 H).
Defined.

Lemma refresh_policy_gates_fetch_witness :
  (FeatureFlags_Admin g_idle = false ∧ GetRunMode g_idle ≠ DevelRunMode
   ∧ RunningInCI g_idle = false)
  ∧ fetches (proofServices.GetServiceType g_idle
               proofServices.newProofServices "web" w0).2 = fetches w0
  ∧ (proofServices.GetServiceType g_idle
       proofServices.newProofServices "web" w0).1.2
    = proofServices.newProofServices
  ∧ fetches (proofServices.ListProofCheckers g_idle in_order
               proofServices.newProofServices w0).2 = fetches w0
  ∧ (proofServices.ListProofCheckers g_idle in_order
       proofServices.newProofServices w0).1.2
    = proofServices.newProofServices.
Proof.
  split; [split; [reflexivity|split; [discriminate|reflexivity]]|].
  apply (proj2 (proj2 (refresh_policy_gates_fetch g_idle in_order
                         proofServices.newProofServices "web" w0)));
    [reflexivity|discriminate|reflexivity].
Defined.

Lemma missing_key_gives_nil_witness :
  ((ToLower "Rooter"
      ∉ dom (proofServices.collection (proofServices.newProofServices)))
   ∧ (∀ services st,
        refresh_batch g_mixed = Some services → st ∈ services →
        ¬ carries (ToLower "Rooter") st))
  ∧ (proofServices.GetServiceType g_mixed
       proofServices.newProofServices "Rooter" w0).1.1 = None.
Proof.
  assert (ToLower "Rooter"
            ∉ dom (proofServices.collection
                     (proofServices.newProofServices))) as H1.
  { apply not_elem_of_dom. reflexivity. }
  assert (∀ services st,
            refresh_batch g_mixed = Some services → st ∈ services →
            ¬ carries (ToLower "Rooter") st) as H2.
  { intros services st Hb Hin [_ Hk]. vm_compute in Hb.
    injection Hb as <-. members Hin; members Hk; discriminate. }
  split; [by split|].
  exact (proj2 (proj2 (missing_key_gives_nil)) g_mixed
           proofServices.newProofServices "Rooter" w0 H1 H2).
Defined.

Lemma all_invalid_batch_is_empty_batch_witness :
  (proofServices.shouldRun g_junk = true
   ∧ GetLatestEntry_result g_junk = inr (stored "junk")
   ∧ json_Unmarshal (Entry (stored "junk")) = inr [broken; broken]
   ∧ (∀ config, config ∈ [broken; broken] →
        ∃ err, NewGenericSocialProofConfig config = inl err)
   ∧ proofServices.shouldRun g_none = true
   ∧ GetLatestEntry_result g_none = inr (stored "none")
   ∧ json_Unmarshal (Entry (stored "none")) = inr [])
  ∧ (proofServices.parseServiceConfigs (stored "junk") w0).1 = inr []
  ∧ (proofServices.loadParamProofServices g_junk
       proofServices.newProofServices w0).1 = proofServices.newProofServices
  ∧ (proofServices.GetServiceType g_junk proofServices.newProofServices
       "HTTP" w0).1
    = (proofServices.GetServiceType g_none proofServices.newProofServices
         "HTTP" w0).1
  ∧ (proofServices.ListProofCheckers g_junk in_order
       proofServices.newProofServices w0).1.1
    ≡ₚ (proofServices.ListProofCheckers g_none backwards
          proofServices.newProofServices w0).1.1.
Proof.
  assert (∀ config, config ∈ [broken; broken] →
            ∃ err, NewGenericSocialProofConfig config = inl err) as Hbad.
  { intros config Hin. exists "invalid config". members Hin; reflexivity. }
  split; [repeat (split; [reflexivity|]); split; [exact Hbad|];
          repeat (split; [reflexivity|]); reflexivity|].
  pose proof (all_invalid_batch_is_empty_batch (E:=pkg) g_junk g_none
                in_order backwards
                (stored "junk") (stored "none") [broken; broken]
                proofServices.newProofServices "HTTP" w0
                eq_refl eq_refl eq_refl Hbad eq_refl eq_refl eq_refl)
    as (H1 & H2 & _ & H4 & H5 & _).
  exact (conj H1 (conj H2 (conj H4 H5))).
Defined.

Lemma refresh_lists_old_and_registered_keys_witness :
  (proofServices.shouldRun g_mixed = true
   ∧ GetLatestEntry_result g_mixed = inr (stored "mixed")
   ∧ json_Unmarshal (Entry (stored "mixed")) = inr [twitter2; broken; mastodon])
  ∧ (proofServices.parseServiceConfigs (stored "mixed") w0).1
    = inr (validated [twitter2; broken; mastodon])
  ∧ length (validated [twitter2; broken; mastodon]) = 2
  ∧ ("x" ∈ (proofServices.ListProofCheckers g_mixed backwards
              proofServices.newProofServices w0).1.1
     ↔ "x" ∈ dom (proofServices.collection proofServices.newProofServices)
       ∨ ∃ config conf,
           config ∈ [twitter2; broken; mastodon]
           ∧ NewGenericSocialProofConfig config = inr conf
           ∧ (useDevelProofCheckers = true
              ∨ IsDevelOnly (NewGenericSocialProofServiceType conf) = false)
           ∧ "x" ∈ AllStringKeys (NewGenericSocialProofServiceType conf)).
Proof.
  split; [repeat split; reflexivity|].
  pose proof (refresh_lists_old_and_registered_keys (E:=pkg) g_mixed
                backwards proofServices.newProofServices w0 (stored "mixed")
                [twitter2; broken; mastodon] eq_refl eq_refl eq_refl)
    as (H1 & _ & _ & H4).
  exact (conj H1 (conj eq_refl (H4 "x"))).
Defined.

Lemma remote_alias_overrides_witness :
  (proofServices.shouldRun g_mixed = true
   ∧ GetLatestEntry_result g_mixed = inr (stored "mixed")
   ∧ json_Unmarshal (Entry (stored "mixed"))
     = inr ([] ++ twitter2 :: [broken; mastodon])
   ∧ NewGenericSocialProofConfig twitter2
     = inr {| name := "Twitter (remote)"; keys := ["twitter"; "x"];
              develOnly := false |}
   ∧ ToLower "TWITTER" = "twitter")
  ∧ (proofServices.GetServiceType g_mixed proofServices.newProofServices
       "TWITTER" w0).1.1
    = Some {| name := "Twitter (remote)"; keys := ["twitter"; "x"];
              develOnly := false |}.
Proof.
  split; [repeat split; reflexivity|].
  apply (remote_alias_overrides (E:=pkg) g_mixed proofServices.newProofServices w0
           (stored "mixed") [] twitter2 [broken; mastodon]
           {| name := "Twitter (remote)"; keys := ["twitter"; "x"];
              develOnly := false |} "twitter" "TWITTER");
    try reflexivity.
  - left.
  - intros config' conf' Hin Hv _ Hk.
    members Hin; [discriminate Hv|].
    injection Hv as <-. members Hk. discriminate Hk.
Defined.

Lemma validated_descriptors_are_registered_under_the_guard_witness :
  (proofServices.shouldRun g_mixed = true
   ∧ GetLatestEntry_result g_mixed = inr (stored "mixed")
   ∧ json_Unmarshal (Entry (stored "mixed")) = inr [twitter2; broken; mastodon])
  ∧ ∃ config' conf',
      config' ∈ [twitter2; broken; mastodon]
      ∧ NewGenericSocialProofConfig config' = inr conf'
      ∧ carries "mastodon.social" (NewGenericSocialProofServiceType conf')
      ∧ proofServices.collection
          (proofServices.loadParamProofServices g_mixed
             proofServices.newProofServices w0).1 !! "mastodon.social"
        = Some (NewGenericSocialProofServiceType conf').
Proof.
  split; [repeat split; reflexivity|].
  apply (proj1 (proj2 (validated_descriptors_are_registered_under_the_guard
                         (E:=pkg) g_mixed proofServices.newProofServices w0
                         (stored "mixed") [twitter2; broken; mastodon]
                         eq_refl eq_refl eq_refl))
           mastodon
           {| name := "Mastodon"; keys := ["mastodon.social"];
              develOnly := false |}).
  - right. right. left.
  - reflexivity.
  - reflexivity.
  - left.
Defined.

Lemma lookup_lowers_the_query_only_witness :
  (getStaticProofServices = [twitter] ++ web :: [rooter]
   ∧ registered web = true ∧ "https" ∈ AllStringKeys web
   ∧ (∀ st', st' ∈ [rooter] → registered st' = true →
             "https" ∉ AllStringKeys st')
   ∧ ToLower "HttpS" = "https"
   ∧ ToLower (ToLower "HttpS") = ToLower "HttpS")
  ∧ staticProofServices.GetServiceType
      staticProofServices.newStaticProofServices "HttpS" = Some web
  ∧ staticProofServices.GetServiceType
      staticProofServices.newStaticProofServices "HttpS"
    = staticProofServices.GetServiceType
        staticProofServices.newStaticProofServices (ToLower "HttpS").
Proof.
  assert (∀ st', st' ∈ [rooter] → registered st' = true →
                 "https" ∉ AllStringKeys st') as Hpost.
  { intros st' Hin Hr. members Hin. discriminate Hr. }
  assert ("https" ∈ AllStringKeys web) as Hk by (right; left).
  split; [repeat split; try reflexivity; assumption|].
  split.
  - exact (proj1 (proj2 (proj2 (proj2 (proj2
                    (lookup_lowers_the_query_only (E:=pkg)))))
                    [twitter] web [rooter] "https" "HttpS"
                    eq_refl eq_refl Hk Hpost eq_refl)).
  - exact (proj1 (proj2 (lookup_lowers_the_query_only (E:=pkg)))
             staticProofServices.newStaticProofServices "HttpS" eq_refl).
Defined.
End production_runs.

(** ** Validated records whose descriptor is development-only *)

Section staged_runs.
Import Demo.
#[local] Existing Instance pkg_staged.

(** C1, as first stated, at a payload whose only record validates to
    a development-only descriptor, in a build without the development
    checkers: the record passes validation (N = M = 1) and its alias is
    not listed after the refresh. *)
Lemma validated_devel_only_record_is_not_listed :
  proofServices.shouldRun g_staged = true
  ∧ GetLatestEntry_result g_staged = inr (stored "staged")
  ∧ json_Unmarshal (Entry (stored "staged")) = inr [staging]
  ∧ length (validated [staging]) = 1
  ∧ (proofServices.ListProofCheckers g_staged in_order
       proofServices.newProofServices w0).1.1 = ["twitter"]
  ∧ ¬ (∀ k, k ∈ (proofServices.ListProofCheckers g_staged in_order
                   proofServices.newProofServices w0).1.1
            ↔ k ∈ dom (proofServices.collection proofServices.newProofServices)
              ∨ ∃ config conf,
                  config ∈ [staging]
                  ∧ NewGenericSocialProofConfig config = inr conf
                  ∧ k ∈ AllStringKeys (NewGenericSocialProofServiceType conf)).
Proof.
  repeat (split; [lazy; reflexivity|]). intros Hclaim.
  destruct (Hclaim "staging.example") as [_ Hback].
  assert ("staging.example" ∈ ["twitter"]) as Hin.
  { apply Hback. right.
    exists staging,
      {| name := "Staging"; keys := ["staging.example"]; develOnly := true |}.
    split; [left|]. split; [lazy; reflexivity|left]. }
  members Hin. discriminate Hin.
Qed.

(** C3, as first stated, at a builtin alias that a validated record
    of the batch carries too, the record's descriptor being
    development-only: after the refresh the lookup still returns the
    builtin. *)
Lemma devel_only_remote_record_does_not_override :
  proofServices.shouldRun g_shadow = true
  ∧ GetLatestEntry_result g_shadow = inr (stored "shadow")
  ∧ json_Unmarshal (Entry (stored "shadow")) = inr [twitter_staging]
  ∧ NewGenericSocialProofConfig twitter_staging
    = inr {| name := "Twitter (staging)"; keys := ["twitter"];
             develOnly := true |}
  ∧ proofServices.collection proofServices.newProofServices !! "twitter"
    = Some twitter
  ∧ (proofServices.GetServiceType g_shadow proofServices.newProofServices
       "twitter" w0).1.1 = Some twitter
  ∧ (proofServices.GetServiceType g_shadow proofServices.newProofServices
       "twitter" w0).1.1
    ≠ Some (NewGenericSocialProofServiceType
              {| name := "Twitter (staging)"; keys := ["twitter"];
                 develOnly := true |}).
Proof. repeat (split; [lazy; reflexivity|]). discriminate. Qed.

(** C6, as first stated, at a batch of two validated records, the
    second with a development-only descriptor: the refresh registers
    the first and not the second. *)
Lemma validated_devel_only_descriptor_is_not_registered :
  proofServices.shouldRun g_pair = true
  ∧ GetLatestEntry_result g_pair = inr (stored "pair")
  ∧ json_Unmarshal (Entry (stored "pair")) = inr [mastodon; staging]
  ∧ length (validated [mastodon; staging]) = 2
  ∧ proofServices.collection
      (proofServices.loadParamProofServices g_pair
         proofServices.newProofServices w0).1 !! "mastodon.social"
    = Some {| name := "Mastodon"; keys := ["mastodon.social"];
              develOnly := false |}
  ∧ ¬ (∀ config conf k,
         config ∈ [mastodon; staging] →
         NewGenericSocialProofConfig config = inr conf →
         k ∈ AllStringKeys (NewGenericSocialProofServiceType conf) →
         is_Some (proofServices.collection
                    (proofServices.loadParamProofServices g_pair
                       proofServices.newProofServices w0).1 !! k)).
Proof.
  repeat (split; [lazy; reflexivity|]). intros Hclaim.
  destruct (Hclaim staging
              {| name := "Staging"; keys := ["staging.example"];
                 develOnly := true |} "staging.example") as [st Hst].
  - right. left.
  - lazy; reflexivity.
  - left.
  - lazy in Hst. discriminate Hst.
Qed.
End staged_runs.

(** ** Aliases that are not in lower-case form *)

Section github_runs.
Import Demo.
#[local] Existing Instance pkg_github.

(** C5, as first stated, at a builtin whose alias has capitals: the
    key is stored as spelled, its lower-case form is not a key, and no
    spelling of the alias finds the descriptor. *)
Lemma mixed_case_alias_is_stored_verbatim :
  getStaticProofServices = [github]
  ∧ registered github = true
  ∧ AllStringKeys github = ["GitHub"]
  ∧ ToLower "GitHub" = "github"
  ∧ staticProofServices.ListProofCheckers in_order
      staticProofServices.newStaticProofServices = ["GitHub"]
  ∧ staticProofServices.GetServiceType
      staticProofServices.newStaticProofServices "GitHub" = None
  ∧ staticProofServices.GetServiceType
      staticProofServices.newStaticProofServices "github" = None
  ∧ staticProofServices.GetServiceType
      staticProofServices.newStaticProofServices "GITHUB" = None
  ∧ (proofServices.GetServiceType g_idle proofServices.newProofServices
       "GitHub" w0).1.1 = None
  ∧ ToLower "GitHub"
      ∉ staticProofServices.ListProofCheckers in_order
          staticProofServices.newStaticProofServices.
Proof.
  repeat (split; [lazy; reflexivity|]).
  assert (staticProofServices.ListProofCheckers in_order
            staticProofServices.newStaticProofServices = ["GitHub"]) as ->
    by (lazy; reflexivity).
  intros Hin. members Hin. discriminate Hin.
Qed.
End github_runs.

(** ** A development-only builtin sharing an alias *)

Section rooter_runs.
Import Demo.
#[local] Existing Instance pkg_rooters.

End rooter_runs.

(** * Further properties of the registries *)

(** ** Logging *)

Section logging.
Context {T : Type} {ST : ServiceType T} {E : Externals T} {GS : GoStrings}.
Implicit Types (p : proofServices.t T) (g : GlobalContext) (w : World).

Import proofServices.

Lemma validated_rejections_length configs :
  length (validated configs) + length (rejections configs) = length configs.
Proof.
  induction configs as [|config configs IH]; [done|].
  rewrite validated_cons, rejections_cons.
  destruct (NewGenericSocialProofConfig config); simpl; lia.
Qed.

Lemma rejections_none configs :
  rejections configs = []
  ↔ ∀ config, config ∈ configs →
              ∃ conf, NewGenericSocialProofConfig config = inr conf.
Proof.
  induction configs as [|config configs IH].
  - split; [|done]. intros _ config Hin. by apply elem_of_nil in Hin.
  - rewrite rejections_cons. split.
    + intros Hnil config' Hin.
      destruct (NewGenericSocialProofConfig config) as [err|conf] eqn:Hc;
        [done|].
      apply elem_of_cons in Hin as [->|Hin]; [by exists conf|].
      by apply IH.
    + intros Hall. destruct (Hall config) as [conf ->]; [left|].
      apply IH. intros config' Hin. apply Hall. by right.
Qed.

(** X1. When the payload decodes to M records, [parseServiceConfigs]
    returns the valid ones and appends to the log one line per rejected
    record, in payload order, each with the record's display name and
    the validation error; valid and rejected records add up to M, a
    payload whose records are all valid logs nothing, and the provider
    is not called. *)
Theorem parse_logs_each_rejected_record entry configs w :
  json_Unmarshal (Entry entry) = inr configs →
  (parseServiceConfigs entry w).1 = inr (validated configs)
  ∧ Log (parseServiceConfigs entry w).2 = Log w ++ rejections configs
  ∧ fetches (parseServiceConfigs entry w).2 = fetches w
  ∧ length (validated configs) + length (rejections configs) = length configs
  ∧ ((∀ config, config ∈ configs →
        ∃ conf, NewGenericSocialProofConfig config = inr conf) →
     (parseServiceConfigs entry w).2 = w
     ∧ length (validated configs) = length configs).
Proof.
  intros Hdec.
  destruct (parseServiceConfigs_run entry w) as [Hres Hf].
  rewrite Hdec in Hres.
  assert (Log (parseServiceConfigs entry w).2 = Log w ++ rejections configs)
    as Hlog.
  { unfold parseServiceConfigs. rewrite Hdec. io_run.
    pose proof (validate_loop_log configs [] w) as Hl.
    by destruct (validate_loop configs [] w) as [res w']. }
  split; [done|split; [done|split; [done|split]]].
  - apply validated_rejections_length.
  - intros Hall. apply rejections_none in Hall as Hnil.
    pose proof (validated_rejections_length configs) as Hlen.
    rewrite Hnil in Hlen, Hlog. rewrite app_nil_r in Hlog. simpl in Hlen.
    split; [|lia].
    destruct (parseServiceConfigs entry w).2 as [f l], w as [f0 l0].
    simpl in *. by subst.
Qed.

(** The log after a refresh, stage by stage. *)
Lemma loadParamProofServices_log_all g p w :
  Log (loadParamProofServices g p w).2 = Log w ++ refresh_log g.
Proof.
  unfold refresh_log.
  destruct (shouldRun g) eqn:Hrun.
  - destruct (GetLatestEntry_result g) as [err|entry] eqn:Hfetch.
    + unfold loadParamProofServices. rewrite Hrun. cbn [negb]. io_run.
      by rewrite Hfetch.
    + destruct (json_Unmarshal (Entry entry)) as [err|configs] eqn:Hdec.
      * unfold loadParamProofServices. rewrite Hrun. cbn [negb]. io_run.
        rewrite Hfetch. unfold parseServiceConfigs. rewrite Hdec. by io_run.
      * by apply (loadParamProofServices_log g p w entry configs).
  - unfold loadParamProofServices. rewrite Hrun. cbn [negb]. io_run.
    by rewrite app_nil_r.
Qed.

(** X2. A public call only appends to the debug log, and what it
    appends is fixed by the stage the refresh reaches: nothing when the
    policy is off, the single line "unable to load" on a fetch error,
    the single line "unable to parse" on a decode error, and otherwise
    the rejection lines of the validation loop. *)
Theorem public_call_log_discipline g o p s w :
  Log (GetServiceType g p s w).2 = Log w ++ refresh_log g
  ∧ Log (ListProofCheckers g o p w).2 = Log w ++ refresh_log g
  ∧ refresh_log g
    = (if shouldRun g then
         match GetLatestEntry_result g with
         | inl err => [UnableToLoad err]
         | inr entry =>
             match json_Unmarshal (Entry entry) with
             | inl err => [UnableToParse err]
             | inr configs =>
                 omap (λ config,
                         match NewGenericSocialProofConfig config with
                         | inl err =>
                             Some (UnableToValidate (DisplayName config) err)
                         | inr _ => None
                         end) configs
             end
         end
       else []).
Proof.
  destruct (GetServiceType_run g p s w) as [_ ->].
  destruct (ListProofCheckers_run g o p w) as [_ ->].
  by rewrite loadParamProofServices_log_all.
Qed.
End logging.

(** ** Sessions *)

Section sessions.
Context {T : Type} {ST : ServiceType T} {E : Externals T} {GS : GoStrings}.
Implicit Types (p : proofServices.t T) (g : GlobalContext) (w : World).
Implicit Types (c : gmap string T) (k : string).

Import proofServices.

Lemma perform_run g (cl : call) p w :
  perform g cl p w = loadParamProofServices g p w.
Proof.
  destruct cl as [s|o]; unfold perform, GetServiceType, ListProofCheckers;
    io_run; by destruct (loadParamProofServices g p w).
Qed.

Lemma session_cons g (cl : call) calls p w :
  session ((g, cl) :: calls) p w
  = session calls (loadParamProofServices g p w).1
      (loadParamProofServices g p w).2.
Proof.
  cbn [session]. io_run. rewrite perform_run.
  by destruct (loadParamProofServices g p w).
Qed.

Lemma loaded_collection g p w :
  collection (loadParamProofServices g p w).1
  = staticProofServices.register_loop (default [] (refresh_batch g))
      (collection p).
Proof.
  rewrite loadParamProofServices_result.
  destruct (refresh_batch g) as [services|]; [apply register_collection|done].
Qed.

Lemma register_loop_idem services c :
  staticProofServices.register_loop services
    (staticProofServices.register_loop services c)
  = staticProofServices.register_loop services c.
Proof.
  apply map_eq. intros k. rewrite !register_loop_lookup.
  by destruct (last (filter (carries k) services)).
Qed.

Lemma session_collection calls p w :
  collection (session calls p w).1
  = staticProofServices.register_loop (session_batch calls) (collection p).
Proof.
  revert p w. induction calls as [|[g cl] calls IH]; intros p w; [done|].
  rewrite session_cons, IH, loaded_collection.
  unfold session_batch. rewrite fmap_cons. cbn [concat fst].
  by rewrite register_loop_app.
Qed.

Lemma register_loop_size services c :
  size c ≤ size (staticProofServices.register_loop services c).
Proof.
  rewrite <- !size_dom. apply subseteq_size. intros k Hk.
  apply register_loop_dom. by left.
Qed.

(** X3. The mapping after a session is the mapping before it with the
    batches of the calls registered one after the other in call order
    (a call whose policy is off, whose fetch fails or whose payload does
    not decode contributes the empty batch).  Hence the value at a key
    is the last descriptor, over the whole session, that passes the
    guard and lists the key, and the old value when there is none. *)
Theorem session_registers_batches_in_call_order calls p w k :
  collection (session calls p w).1
  = staticProofServices.register_loop (session_batch calls) (collection p)
  ∧ collection (session calls p w).1 !! k
    = match last (filter (carries k) (session_batch calls)) with
      | Some st => Some st
      | None => collection p !! k
      end.
Proof.
  pose proof (session_collection calls p w) as Hc.
  split; [done|]. by rewrite Hc, register_loop_lookup.
Qed.

(** X4. Repeating a public call in the same context (same policy,
    same provider answer) from the receiver the first call left adds
    no key and turns no hit into a miss or a miss into a hit: the
    mapping has the same keys, the second listing holds the same keys
    as the first (each in the order its own loop visits them), and a
    lookup finds a descriptor the second time exactly when it did the
    first time.  The log and the fetch counter in between do not
    matter. *)
Theorem refresh_is_idempotent g o o' p s w w' :
  dom (collection (loadParamProofServices g
                     (loadParamProofServices g p w).1 w').1)
  = dom (collection (loadParamProofServices g p w).1)
  ∧ (ListProofCheckers g o' (ListProofCheckers g o p w).1.2 w').1.1
    ≡ₚ (ListProofCheckers g o p w).1.1
  ∧ (is_Some (GetServiceType g (GetServiceType g p s w).1.2 s w').1.1
     ↔ is_Some (GetServiceType g p s w).1.1).
Proof.
  assert (∀ w1 w2,
    collection (loadParamProofServices g (loadParamProofServices g p w1).1 w2).1
    = collection (loadParamProofServices g p w1).1) as Hidem.
  { intros w1 w2. rewrite !loaded_collection. apply register_loop_idem. }
  split; [by rewrite Hidem|split].
  - destruct (ListProofCheckers_run g o p w) as [Hr _]. rewrite Hr.
    cbn [fst snd].
    destruct (ListProofCheckers_run g o' (loadParamProofServices g p w).1 w')
      as [-> _].
    cbn [fst]. apply listings_perm. by rewrite Hidem.
  - destruct (GetServiceType_run g p s w) as [Hr _]. rewrite Hr. cbn [fst snd].
    destruct (GetServiceType_run g (loadParamProofServices g p w).1 s w')
      as [-> _].
    cbn [fst]. by rewrite Hidem.
Qed.

(** X5. No call ever removes a key: a key of the mapping is still a key
    after any session, and the listing never gets shorter. *)
Theorem session_never_removes_a_key calls p w k :
  k ∈ dom (collection p) →
  k ∈ dom (collection (session calls p w).1)
  ∧ size (collection p) ≤ size (collection (session calls p w).1).
Proof.
  intros Hk. rewrite session_collection. split.
  - apply register_loop_dom. by left.
  - apply register_loop_size.
Qed.
End sessions.

(** ** The development flag over the life of the registries *)

Section devel_flag.
Context {T : Type} {ST : ServiceType T} {E : Externals T} {GS : GoStrings}.
Implicit Types (c : gmap string T) (st : T) (k : string).

Import staticProofServices.



End devel_flag.

(** ** What the mapping holds *)

Section contents.
Context {T : Type} {ST : ServiceType T} {E : Externals T} {GS : GoStrings}.
Implicit Types (p : proofServices.t T) (g : GlobalContext) (w : World).
Implicit Types (c : gmap string T) (k : string) (st d : T).

Import staticProofServices.

(** Registration keeps "every entry maps a key to a registered
    descriptor that lists it, taken from [pool]". *)
Lemma register_loop_entries (pool : T → Prop) services c :
  (∀ k d, c !! k = Some d → carries k d ∧ pool d) →
  (∀ d, d ∈ services → pool d) →
  ∀ k d, register_loop services c !! k = Some d → carries k d ∧ pool d.
Proof.
  intros Hc Hpool k d. rewrite register_loop_lookup.
  destruct (last (filter (carries k) services)) as [st|] eqn:Hl; [|apply Hc].
  intros [= ->]. apply last_filter_Some in Hl as [Hin Hcar]. split; [done|].
  by apply Hpool.
Qed.

(** X6. A lookup that succeeds returns a descriptor that passes the
    guard of [register] and lists the lower-cased query among its
    aliases.  On the static registry it is one of the builtins; on the
    dynamic registry, after any session, it is a builtin or a
    descriptor of one of the session's batches. *)
Theorem lookup_returns_a_descriptor_listing_the_key :
  (∀ s d,
     GetServiceType newStaticProofServices s = Some d →
     d ∈ getStaticProofServices ∧ registered d = true
     ∧ ToLower s ∈ AllStringKeys d)
  ∧ (∀ calls g s w d,
       (proofServices.GetServiceType g
          (proofServices.session calls proofServices.newProofServices w).1 s
          (proofServices.session calls proofServices.newProofServices w).2).1.1
       = Some d →
       (d ∈ getStaticProofServices
        ∨ d ∈ session_batch
                (calls ++ [(g, proofServices.CallGetServiceType s)]))
       ∧ registered d = true ∧ ToLower s ∈ AllStringKeys d).
Proof.
  assert (∀ k d, collection newStaticProofServices !! k = Some d →
                 carries k d ∧ d ∈ getStaticProofServices) as Hstatic.
  { unfold newStaticProofServices, register. cbn [collection].
    apply register_loop_entries; [|done].
    intros k d. by rewrite lookup_empty. }
  split.
  - intros s d Hd. destruct (Hstatic _ _ Hd) as [[Hr Hk] Hin]. done.
  - intros calls g s w d.
    destruct (GetServiceType_run g
                (proofServices.session calls proofServices.newProofServices w).1
                s
                (proofServices.session calls proofServices.newProofServices w).2)
      as [-> _].
    cbn [fst]. rewrite loaded_collection, session_collection.
    rewrite <- register_loop_app, dynamic_seed. intros Hd.
    assert (session_batch (calls ++ [(g, proofServices.CallGetServiceType s)])
            = session_batch calls ++ default [] (refresh_batch g)) as ->.
    { unfold session_batch. rewrite fmap_app, concat_app. simpl.
      by rewrite app_nil_r. }
    eapply (register_loop_entries
              (λ d, d ∈ getStaticProofServices
                    ∨ d ∈ session_batch calls ++ default [] (refresh_batch g)))
      in Hd as [[Hr Hk] Hin]; [done| |].
    + intros k' d' Hd'. destruct (Hstatic _ _ Hd') as [Hcar Hin]. by split; [|left].
    + intros d' Hin. by right.
Qed.

(** X7. A lookup succeeds exactly on the queries that
    [strings.ToLower] maps to a listed key: on the static registry, and
    on the dynamic registry for a lookup and a listing made in the same
    context from the same receiver.  Whatever the order of visit, the
    listing has no duplicates and as many entries as the mapping. *)
Theorem lookup_agrees_with_listing :
  (∀ o (sp : t T) s,
     is_Some (GetServiceType sp s) ↔ ToLower s ∈ ListProofCheckers o sp)
  ∧ (∀ o (sp : t T),
       NoDup (ListProofCheckers o sp)
       ∧ length (ListProofCheckers o sp) = size (collection sp))
  ∧ (∀ g o p s w,
       is_Some (proofServices.GetServiceType g p s w).1.1
       ↔ ToLower s ∈ (proofServices.ListProofCheckers g o p w).1.1)
  ∧ (∀ g o p w,
       NoDup (proofServices.ListProofCheckers g o p w).1.1
       ∧ length (proofServices.ListProofCheckers g o p w).1.1
         = size (proofServices.collection
                   (proofServices.ListProofCheckers g o p w).1.2)).
Proof.
  split; [|split; [|split]].
  - intros o sp s. unfold GetServiceType, ListProofCheckers.
    by rewrite elem_of_listing, elem_of_dom.
  - intros o sp. unfold ListProofCheckers.
    split; [apply NoDup_listing|apply length_listing].
  - intros g o p s w. destruct (GetServiceType_run g p s w) as [-> _].
    destruct (ListProofCheckers_run g o p w) as [-> _]. cbn [fst].
    by rewrite elem_of_listing, elem_of_dom.
  - intros g o p w. destruct (ListProofCheckers_run g o p w) as [-> _].
    cbn [fst snd]. split; [apply NoDup_listing|apply length_listing].
Qed.

(** X8. An entry stored under a key that [strings.ToLower] changes is
    listed by [ListProofCheckers] and is out of reach of
    [GetServiceType] for every query on which lower-casing twice is
    lower-casing once, hence for every ASCII query: no such query is
    mapped to the key, so adding the entry to a mapping changes the
    answer to none of them. *)
Theorem key_with_capitals_is_listed_but_unreachable k :
  ToLower k ≠ k →
  (∀ s, ToLower (ToLower s) = ToLower s → ToLower s ≠ k)
  ∧ (∀ s, is_ascii s = true → ToLower s ≠ k)
  ∧ (∀ c d s,
       ToLower (ToLower s) = ToLower s →
       GetServiceType {| collection := <[k := d]> c |} s
       = GetServiceType {| collection := c |} s)
  ∧ (∀ o c d, k ∈ ListProofCheckers o {| collection := <[k := d]> c |}).
Proof.
  intros Hk.
  assert (∀ s, ToLower (ToLower s) = ToLower s → ToLower s ≠ k) as Hs.
  { intros s Hstable Heq. apply Hk. by rewrite <- Heq. }
  split; [done|split; [|split]].
  - intros s Hascii. apply Hs. by apply ToLower_ascii_stable.
  - intros c d s Hstable. unfold GetServiceType. cbn [collection].
    rewrite lookup_insert_ne; [done|]. intros Heq. by apply (Hs s).
  - intros o c d. unfold ListProofCheckers. cbn [collection].
    rewrite elem_of_listing, dom_insert_L. apply elem_of_union_l.
    by apply elem_of_singleton.
Qed.

(** X9. The static registry is empty exactly when no builtin that
    passes the guard has an alias; its listing is then the empty slice
    and every lookup returns the absent descriptor. *)
Theorem static_registry_empty_iff o :
  (ListProofCheckers o newStaticProofServices = []
   ↔ ∀ st, st ∈ getStaticProofServices → registered st = true →
           AllStringKeys st = [])
  ∧ (ListProofCheckers o newStaticProofServices = [] →
     ∀ s, GetServiceType newStaticProofServices s = None).
Proof.
  assert (ListProofCheckers o newStaticProofServices = []
          ↔ collection newStaticProofServices = ∅) as Hnil.
  { unfold ListProofCheckers.
    by rewrite <- length_zero_iff_nil, length_listing, map_size_empty_iff. }
  split.
  - rewrite Hnil, <- dom_empty_iff_L. split.
    + intros Hdom st Hin Hr.
      destruct (AllStringKeys st) as [|k keys] eqn:Hkeys; [done|].
      assert (k ∈ dom (collection newStaticProofServices)) as Hk.
      { unfold newStaticProofServices, register. cbn [collection].
        apply register_loop_dom. right. exists st. split; [done|].
        split; [done|]. rewrite Hkeys. left. }
      rewrite Hdom in Hk. by apply not_elem_of_empty in Hk.
    + intros Hall. apply set_eq. intros k. split; [|by intros ?%not_elem_of_empty].
      unfold newStaticProofServices, register. cbn [collection].
      rewrite register_loop_dom, dom_empty_L.
      intros [?|(st & Hin & Hr & Hk)]; [done|].
      rewrite (Hall st Hin Hr) in Hk. by apply elem_of_nil in Hk.
  - intros Hempty s. apply Hnil in Hempty.
    unfold GetServiceType. by rewrite Hempty, lookup_empty.
Qed.

Lemma register_keys_size st keys c :
  size (register_keys st keys c) ≤ size c + length keys.
Proof.
  revert c. induction keys as [|k keys IH]; intros c; cbn [register_keys].
  - simpl. lia.
  - etrans; [apply IH|]. rewrite map_size_insert.
    destruct (c !! k); simpl; lia.
Qed.

Lemma register_loop_size_le services c :
  size (register_loop services c) ≤ size c + alias_count services.
Proof.
  revert c. induction services as [|st services IH]; intros c.
  - simpl. unfold alias_count. simpl. lia.
  - rewrite register_loop_cons. etrans; [apply IH|].
    unfold alias_count. cbn [sum_list_with].
    destruct (registered st); [|lia].
    pose proof (register_keys_size st (AllStringKeys st) c). lia.
Qed.

(** X10. Registration adds at most one key per alias of a descriptor
    that passes the guard.  The static listing is no longer than the
    number of such aliases among the builtins, and a public call makes
    the listing grow by at most the number of such aliases in its batch
    and never shrink. *)
Theorem listing_length_bounds o :
  length (ListProofCheckers o newStaticProofServices)
  ≤ alias_count getStaticProofServices
  ∧ (∀ g p w,
       size (proofServices.collection p)
       ≤ length (proofServices.ListProofCheckers g o p w).1.1
       ∧ length (proofServices.ListProofCheckers g o p w).1.1
         ≤ size (proofServices.collection p)
           + alias_count (default [] (refresh_batch g))).
Proof.
  split.
  - unfold ListProofCheckers. rewrite length_listing.
    unfold newStaticProofServices, register. cbn [collection].
    etrans; [apply register_loop_size_le|]. by rewrite map_size_empty.
  - intros g p w. destruct (ListProofCheckers_run g o p w) as [-> _]. cbn [fst].
    rewrite length_listing, loaded_collection. split.
    + apply register_loop_size.
    + apply register_loop_size_le.
Qed.
End contents.

(** ** Policy off, and the order of the builtins *)

Section composition.
Context {T : Type} {ST : ServiceType T} {E : Externals T} {GS : GoStrings}.
Implicit Types (p : proofServices.t T) (g : GlobalContext) (w : World).
Implicit Types (c : gmap string T) (k : string) (st d : T).

Import proofServices.

Lemma idle_load g p w :
  shouldRun g = false → loadParamProofServices g p w = (p, w).
Proof. intros Hrun. unfold loadParamProofServices. by rewrite Hrun. Qed.

Lemma idle_session calls p w :
  Forall (λ gc, shouldRun gc.1 = false) calls → session calls p w = (p, w).
Proof.
  induction 1 as [|[g cl] calls Hg _ IH]; [done|].
  rewrite session_cons, idle_load by done. apply IH.
Qed.

(** X11. While the refresh policy is off the dynamic registry is the
    static one: after any session of calls made with the policy off, a
    further such call answers as the static registry does (the same
    lookup result; a listing with the same keys, each in the order its
    own loop visits them), and receiver, fetch counter and log are as
    they were at construction and at the start of the session. *)
Theorem policy_off_registry_is_the_static_one calls g o o' s w :
  Forall (λ gc, shouldRun gc.1 = false) calls →
  shouldRun g = false →
  session calls newProofServices w = (newProofServices, w)
  ∧ GetServiceType g (session calls newProofServices w).1 s
      (session calls newProofServices w).2
    = (staticProofServices.GetServiceType
         staticProofServices.newStaticProofServices s,
       newProofServices, w)
  ∧ (ListProofCheckers g o (session calls newProofServices w).1
       (session calls newProofServices w).2).1.1
    ≡ₚ staticProofServices.ListProofCheckers o'
         staticProofServices.newStaticProofServices
  ∧ (ListProofCheckers g o (session calls newProofServices w).1
       (session calls newProofServices w).2).1.2 = newProofServices
  ∧ (ListProofCheckers g o (session calls newProofServices w).1
       (session calls newProofServices w).2).2 = w.
Proof.
  intros Hcalls Hg. rewrite (idle_session calls) by done. cbn [fst snd].
  split; [done|].
  unfold GetServiceType, ListProofCheckers. io_run.
  rewrite (idle_load g) by done. cbn [fst snd].
  unfold staticProofServices.GetServiceType,
    staticProofServices.ListProofCheckers.
  rewrite dynamic_seed. repeat split. by apply listings_perm.
Qed.

(** X12. Where no two descriptors that pass the guard share an alias,
    registration does not depend on their order: two lists that are
    permutations of each other give the same mapping, on both
    registries. *)
Theorem registration_order_matters_only_for_shared_aliases
    (services services' : list T) c :
  (∀ k st st', st ∈ services → st' ∈ services →
               carries k st → carries k st' → st = st') →
  services ≡ₚ services' →
  staticProofServices.register_loop services c
  = staticProofServices.register_loop services' c
  ∧ register_loop services c = register_loop services' c.
Proof.
  intros Hone Hperm.
  assert (staticProofServices.register_loop services c
          = staticProofServices.register_loop services' c) as Heq.
  { apply map_eq. intros k. rewrite !register_loop_lookup.
    assert (filter (carries k) services ≡ₚ filter (carries k) services')
      as Hf by (by apply filter_Permutation).
    destruct (last (filter (carries k) services)) as [st|] eqn:Hl.
    - apply last_filter_Some in Hl as [Hin Hcar].
      destruct (last (filter (carries k) services')) as [st'|] eqn:Hl'.
      + apply last_filter_Some in Hl' as [Hin' Hcar'].
        f_equal. symmetry. apply (Hone k); [by rewrite Hperm|done..].
      + apply last_None in Hl'. rewrite Hl' in Hf.
        apply Permutation_nil_r in Hf.
        assert (st ∈ filter (carries k) services) as Hst
          by (by apply list_elem_of_filter).
        rewrite Hf in Hst. by apply elem_of_nil in Hst.
    - apply last_None in Hl. rewrite Hl in Hf.
      apply Permutation_nil_l in Hf. by rewrite <- Hf. }
  split; [done|]. by rewrite !dynamic_register_loop.
Qed.
End composition.

(** ** Runs of the further properties *)

Section further_runs.
Import Demo DemoSessions.
#[local] Existing Instance pkg.

Lemma parse_logs_each_rejected_record_witness :
  json_Unmarshal (Entry (stored "mixed")) = inr [twitter2; broken; mastodon]
  ∧ (proofServices.parseServiceConfigs (stored "mixed") w0).1
    = inr (validated [twitter2; broken; mastodon])
  ∧ Log (proofServices.parseServiceConfigs (stored "mixed") w0).2
    = Log w0 ++ rejections [twitter2; broken; mastodon]
  ∧ rejections [twitter2; broken; mastodon]
    = [UnableToValidate "Broken" "invalid config"].
Proof.
  split; [reflexivity|].
  destruct (parse_logs_each_rejected_record (E:=pkg) (stored "mixed")
              [twitter2; broken; mastodon] w0 eq_refl) as (H1 & H2 & _).
  exact (conj H1 (conj H2 eq_refl)).
Defined.

Lemma session_never_removes_a_key_witness :
  "web" ∈ dom (proofServices.collection proofServices.newProofServices)
  ∧ "web" ∈ dom (proofServices.collection
                   (proofServices.session calls_mixed
                      proofServices.newProofServices w0).1)
  ∧ size (proofServices.collection proofServices.newProofServices)
    ≤ size (proofServices.collection
              (proofServices.session calls_mixed
                 proofServices.newProofServices w0).1).
Proof.
  assert ("web" ∈ dom (proofServices.collection
                         (proofServices.newProofServices (E:=pkg)))) as Hk.
  { apply elem_of_dom. exists web. lazy. reflexivity. }
  split; [exact Hk|].
  exact (session_never_removes_a_key (E:=pkg) calls_mixed
           proofServices.newProofServices w0 "web" Hk).
Defined.

Lemma lookup_returns_a_descriptor_listing_the_key_witness :
  staticProofServices.GetServiceType
    staticProofServices.newStaticProofServices "HTTPS" = Some web
  ∧ web ∈ getStaticProofServices ∧ registered web = true
  ∧ ToLower "HTTPS" ∈ AllStringKeys web.
Proof.
  assert (staticProofServices.GetServiceType
            (staticProofServices.newStaticProofServices (E:=pkg)) "HTTPS"
          = Some web) as Hd by (lazy; reflexivity).
  split; [exact Hd|].
  exact (proj1 (lookup_returns_a_descriptor_listing_the_key
                  (ST:=Svc_ServiceType) (E:=pkg)) "HTTPS" web Hd).
Defined.

Lemma key_with_capitals_is_listed_but_unreachable_witness :
  ToLower "GitHub" ≠ "GitHub"
  ∧ (∀ s, ToLower (ToLower s) = ToLower s → ToLower s ≠ "GitHub")
  ∧ (∀ s, is_ascii s = true → ToLower s ≠ "GitHub")
  ∧ (∀ (c : gmap string Svc) d s,
       ToLower (ToLower s) = ToLower s →
       staticProofServices.GetServiceType
         {| staticProofServices.collection := <["GitHub" := d]> c |} s
       = staticProofServices.GetServiceType
           {| staticProofServices.collection := c |} s)
  ∧ (∀ o (c : gmap string Svc) d,
       "GitHub" ∈ staticProofServices.ListProofCheckers o
                    {| staticProofServices.collection := <["GitHub" := d]> c |}).
Proof.
  assert (ToLower "GitHub" ≠ "GitHub") as Hk by discriminate.
  split; [exact Hk|].
  exact (key_with_capitals_is_listed_but_unreachable (T:=Svc) "GitHub" Hk).
Defined.

Lemma static_registry_empty_iff_witness :
  staticProofServices.ListProofCheckers backwards
    (staticProofServices.newStaticProofServices (E:=pkg_rooter_only)) = []
  ∧ staticProofServices.GetServiceType
      (staticProofServices.newStaticProofServices (E:=pkg_rooter_only))
      "rooter" = None.
Proof.
  assert (staticProofServices.ListProofCheckers backwards
            (staticProofServices.newStaticProofServices (E:=pkg_rooter_only))
          = []) as Hnil by (lazy; reflexivity).
  split; [exact Hnil|].
  exact (proj2 (static_registry_empty_iff (ST:=Svc_ServiceType)
                  (E:=pkg_rooter_only) backwards) Hnil "rooter").
Defined.

Lemma policy_off_registry_is_the_static_one_witness :
  (Forall (λ gc, proofServices.shouldRun gc.1 = false) calls_idle
   ∧ proofServices.shouldRun g_idle = false)
  ∧ proofServices.session calls_idle proofServices.newProofServices w0
    = (proofServices.newProofServices, w0)
  ∧ proofServices.GetServiceType g_idle
      (proofServices.session calls_idle proofServices.newProofServices w0).1
      "Twitter"
      (proofServices.session calls_idle proofServices.newProofServices w0).2
    = (staticProofServices.GetServiceType
         staticProofServices.newStaticProofServices "Twitter",
       proofServices.newProofServices, w0)
  ∧ (proofServices.ListProofCheckers g_idle backwards
       (proofServices.session calls_idle proofServices.newProofServices w0).1
       (proofServices.session calls_idle proofServices.newProofServices w0).2
    ).1.1
    ≡ₚ staticProofServices.ListProofCheckers in_order
         staticProofServices.newStaticProofServices.
Proof.
  assert (Forall (λ gc : GlobalContext * proofServices.call,
                    proofServices.shouldRun gc.1 = false) calls_idle) as Hc.
  { repeat constructor. }
  split; [split; [exact Hc|reflexivity]|].
  destruct (policy_off_registry_is_the_static_one (E:=pkg) calls_idle g_idle
              backwards in_order "Twitter" w0 Hc eq_refl)
    as (H1 & H2 & H3 & _).
  exact (conj H1 (conj H2 H3)).
Defined.

Lemma registration_order_matters_only_for_shared_aliases_witness :
  ((∀ k st st', st ∈ [twitter; web; rooter] → st' ∈ [twitter; web; rooter] →
                carries k st → carries k st' → st = st')
   ∧ [twitter; web; rooter] ≡ₚ [web; rooter; twitter])
  ∧ staticProofServices.register_loop [twitter; web; rooter] ∅
    = staticProofServices.register_loop [web; rooter; twitter] ∅.
Proof.
  assert (∀ k st st',
            st ∈ [twitter; web; rooter] → st' ∈ [twitter; web; rooter] →
            carries (E:=pkg) k st → carries (E:=pkg) k st' → st = st') as Hone.
  { intros k st st' Hin Hin' [Hr Hk] [Hr' Hk'].
    members Hin; members Hin'; try reflexivity; try discriminate Hr;
      try discriminate Hr'; members Hk; members Hk'; discriminate. }
  assert ([twitter; web; rooter] ≡ₚ [web; rooter; twitter]) as Hperm.
  { apply (Permutation_cons_append [web; rooter] twitter). }
  split; [by split|].
  exact (proj1 (registration_order_matters_only_for_shared_aliases (E:=pkg)
                  [twitter; web; rooter] [web; rooter; twitter] ∅ Hone Hperm)).
Defined.

End further_runs.
